(** * The process governor of [server/script/ipc/governor.go]

    A [Governor] keeps one external worker process alive: every request
    is one Send followed by one Receive on the current process handle,
    and when the channel to the worker dies the governor reaps the old
    process, spawns a replacement and tries again.

    The development embeds the Go methods [Govern], [Exchange],
    [exchange], [ExchangeDirect], [Kill] and [Wait] as functions in a
    state monad over an explicit machine state, written against an
    abstract [Process] capability, and proves the behaviour of the
    respawn loop. *)

From Stdlib Require Import Bool Arith List String Ascii Lia.
From Stdlib Require Strings.Byte.
Import ListNotations.
Local Open Scope string_scope.
Local Open Scope list_scope.

Set Implicit Arguments.

(** ** Go strings: [strings.Contains] *)

Module Strings.

(** [strings.Contains(s, substr)]: [substr] occurs somewhere in [s].
    The scan tries every start position from the left. *)
Fixpoint Contains (s substr : string) : bool :=
  if String.prefix substr s then true
  else match s with
       | EmptyString => false
       | String _ rest => Contains rest substr
       end.

(** The logical reading of "the message contains the substring". *)
Definition Occurs (substr s : string) : Prop :=
  exists before after, s = (before ++ substr ++ after)%string.

End Strings.

(** ** Go errors: [errors.New], [errors.Wrap], [errors.Is], [Error()] *)

Module Errors.

(** An error value.  [New id msg] is a leaf created by [errors.New],
    or a value of any other error type that has neither an [Unwrap]
    method nor an [Is] method: Go compares such values by identity,
    which [id] stands for, and [msg] is what [Error()] prints.
    [Wrap cause label] is [errors.Wrap(cause, label)] of
    github.com/pkg/errors.  [Chain msg cause] is any other error type
    with a method [Unwrap() error], a message of its own and no [Is]
    method (an [*os.PathError], [fmt.Errorf] with [%w]).
    [Custom id msg accepts] and [CustomChain msg accepts cause] are
    errors of a type that has a method [Is(target error) bool] of its
    own, without and with a method [Unwrap() error]: [accepts] lists
    the identities of the sentinel errors for which that method answers
    [true].  [Join msg accepts causes] is an error of a type with a
    method [Unwrap() []error] (the result of [errors.Join], [fmt.Errorf]
    with several [%w]); [accepts] is as before, and empty for a type
    without an [Is] method. *)
#[warnings="-register-all"]
Inductive error : Type :=
| New (id : nat) (msg : string)
| Wrap (cause : error) (label : string)
| Chain (msg : string) (cause : error)
| Custom (id : nat) (msg : string) (accepts : list nat)
| CustomChain (msg : string) (accepts : list nat) (cause : error)
| Join (msg : string) (accepts : list nat) (causes : list error).

(** [err.Error()].  A wrapped error prints as [label: cause]. *)
Fixpoint Error (e : error) : string :=
  match e with
  | New _ msg => msg
  | Wrap cause label => (label ++ ": " ++ Error cause)%string
  | Chain msg _ => msg
  | Custom _ msg _ => msg
  | CustomChain msg _ _ => msg
  | Join msg _ _ => msg
  end.

(** Go's [==] on error values. *)
Fixpoint error_eq_dec (a b : error) {struct a} : {a = b} + {a <> b}.
Proof.
  decide equality;
    first [apply string_dec | apply Nat.eq_dec
           | apply (list_eq_dec Nat.eq_dec)
           | apply (list_eq_dec error_eq_dec)].
Defined.

(** What an [Is] method that accepts the sentinels [accepts] answers for
    [target]. *)
Definition answers (accepts : list nat) (target : error) : bool :=
  match target with
  | New tid _ => existsb (Nat.eqb tid) accepts
  | _ => false
  end.

(** [x.Is(target)] for an error [x] that has the method; [false] stands
    for an error that does not have it. *)
Definition own_Is (link target : error) : bool :=
  match link with
  | Custom _ _ accepts => answers accepts target
  | CustomChain _ accepts _ => answers accepts target
  | Join _ accepts _ => answers accepts target
  | _ => false
  end.

(** [errors.Is(err, target)]: at every link of the chain, compare the
    link with the target, then ask the link's own [Is] method if it has
    one, then [Unwrap], down to the last link. *)
Fixpoint Is (e target : error) : bool :=
  if error_eq_dec e target then true
  else match e with
       | New _ _ => false
       | Wrap cause _ => Is cause target
       | Chain _ cause => Is cause target
       | Custom _ _ accepts => answers accepts target
       | CustomChain _ accepts cause =>
           if answers accepts target then true else Is cause target
       | Join _ accepts causes =>
           if answers accepts target then true
           else existsb (fun cause => Is cause target) causes
       end.

(** The cause chain of an error, outermost link first; for an error
    with several causes, the links of its tree, depth first. *)
Fixpoint chain (e : error) : list error :=
  match e with
  | New _ _ => [e]
  | Wrap cause _ => e :: chain cause
  | Chain _ cause => e :: chain cause
  | Custom _ _ _ => [e]
  | CustomChain _ _ cause => e :: chain cause
  | Join _ _ causes => e :: flat_map chain causes
  end.

(** [errors.Cause] of github.com/pkg/errors: follow the links that have
    a [Cause()] method, which the errors made by [errors.Wrap] have, and
    stop at the first error that has none. *)
Fixpoint Cause (e : error) : error :=
  match e with
  | Wrap cause _ => Cause cause
  | New _ _ | Chain _ _ | Custom _ _ _ | CustomChain _ _ _ | Join _ _ _ => e
  end.

(** An error with one chain of causes, none of whose links has an [Is]
    method of its own. *)
Fixpoint plain (e : error) : bool :=
  match e with
  | New _ _ => true
  | Wrap cause _ => plain cause
  | Chain _ cause => plain cause
  | Custom _ _ _ => false
  | CustomChain _ _ _ => false
  | Join _ _ _ => false
  end.

(** A link of a chain is the target: it is that value, or its own [Is]
    method says so. *)
Definition link_is (target link : error) : Prop :=
  link = target \/ own_Is link target = true.

(** "[err] is [target]", as [errors.Is] is documented: some link of the
    chain of [err] is the target. *)
Definition Matches (err target : error) : Prop :=
  exists link, In link (chain err) /\ link_is target link.

(** Identities of the sentinel errors that appear in the sources. *)
Definition id_EOF : nat := 0.
Definition id_OutOfMemory : nat := 1.
Definition id_Canceled : nat := 2.
Definition id_DeadlineExceeded : nat := 3.

(** [io.EOF]. *)
Definition io_EOF : error := New id_EOF "EOF".

(** [var ErrOutOfMemory = errors.New("out of memory")]. *)
Definition ErrOutOfMemory : error := New id_OutOfMemory "out of memory".

(** [context.Canceled] and [context.DeadlineExceeded]. *)
Definition Canceled : error := New id_Canceled "context canceled".
Definition DeadlineExceeded : error :=
  New id_DeadlineExceeded "context deadline exceeded".

End Errors.

Import Errors.

(** ** The error classification of the retry loop *)

(** The condition of the [if] at governor.go:86-88:
    [errors.Is(err, io.EOF) || strings.Contains(err.Error(), "file already closed")
     || strings.Contains(err.Error(), "broken pipe")]. *)
Definition transport_failure (err : error) : bool :=
  Is err io_EOF
  || Strings.Contains (Error err) "file already closed"
  || Strings.Contains (Error err) "broken pipe".

(** The classification as the specification words it: the error "is
    EOF" (some link of its cause chain is [io.EOF], by being that value
    or by saying so through its own [Is] method), or its message
    contains one of the two channel-death signatures. *)
Definition TransientTransportFailure (err : error) : Prop :=
  Matches err io_EOF
  \/ Strings.Occurs "file already closed" (Error err)
  \/ Strings.Occurs "broken pipe" (Error err).

(** ** Payloads and contexts *)

(** A Go [[]byte].  The [nil] slice is the empty one. *)
Definition bytes : Type := list Byte.byte.
Definition nil_bytes : bytes := [].

(** A [context.Context]: [context.Background()], which is never done,
    or a context derived from it (with a cancel function or a deadline),
    told apart by a number. *)
Inductive context : Type :=
| Background
| Derived (id : nat).

(** ** The capabilities the governor is written against *)

Module Proc.

(** What [Spawn() (Process, error)] hands back. *)
Inductive spawned (H : Type) : Type :=
| Started (p : H)
| Failed (err : error).
Arguments Started {H} p.
Arguments Failed {H} err.

(** [type Process interface], governor.go:29-43, with the embedded
    [Interface] of governor.go:15-24.  [H] is the type of process
    handles and [W] the state of everything outside the governor (the
    operating system, the worker, the clock); a method call reads and
    changes it. *)
Class Process (W H : Type) : Type := {
  Send : H -> context -> bytes -> W -> option error * W;
  Receive : H -> context -> W -> (bytes * option error) * W;
  String : H -> string;
  Spawn : H -> W -> spawned H * W;
  Kill : H -> W -> W;
  Wait : H -> W -> option error * W
}.

End Proc.

Module Runtime.

(** The Go runtime as far as the governor observes it.
    [ctx_err id w] is what [ctx.Err()] returns for the derived context
    [id] in world [w] ([None] while [ctx.Done()] is still open).
    [lock_wait ctx w] is the world at the moment a blocked
    [Mutex.Lock(ctx)] stops blocking, and [lock_won ctx w'] tells
    whether the mutex was obtained at that moment. *)
Class Runtime (W : Type) : Type := {
  ctx_err : nat -> W -> option error;
  lock_wait : context -> W -> W;
  lock_won : context -> W -> bool
}.

End Runtime.

(** ** The machine state *)

(** The state of the cancellable [Mutex] of the [ipc] package. *)
Record Mutex : Type := { locked : bool }.

(** The release callback returned by [Mutex.Lock]; [nil_func] is Go's
    [nil] function value. *)
Inductive release : Type :=
| nil_func
| unlock.

(** Log levels of the [logging] package used by the governor. *)
Inductive level : Type := DEBUG | WARN.

Section Machine.

Variables W H : Type.

(** Calls that leave the governor, in the order they happen. *)
Inductive Event : Type :=
| EvLock (ctx : context)
| EvUnlock
| EvSend (p : H) (ctx : context) (data : bytes)
| EvReceive (p : H) (ctx : context)
| EvSpawn (p : H)
| EvKill (p : H)
| EvWait (p : H).

(** Everything outside the governor: the world the process and the
    runtime live in, the calls observed so far and the log. *)
Record Env : Type := {
  world : W;
  trace : list Event;
  logs : list (level * string)
}.

(** [type Governor struct { process Process; mu Mutex }],
    governor.go:47-50. *)
Record Governor : Type := {
  process : H;
  mu : Mutex
}.

Record Machine : Type := {
  gov : Governor;
  env : Env
}.

(** How a call ends: it returns, it panics, or the fuel given to an
    unbounded loop ran out before it did either. *)
Inductive outcome (A : Type) : Type :=
| Returned (a : A)
| Panicked (msg : string)
| OutOfFuel.

Definition M (A : Type) : Type := Machine -> outcome A * Machine.

Definition ret {A} (a : A) : M A := fun m => (Returned a, m).

Definition bind {A B} (c : M A) (k : A -> M B) : M B :=
  fun m =>
    match c m with
    | (Returned a, m') => k a m'
    | (Panicked _ msg, m') => (Panicked B msg, m')
    | (OutOfFuel _, m') => (OutOfFuel B, m')
    end.

Definition panic {A} (msg : string) : M A := fun m => (Panicked A msg, m).

Definition out_of_fuel {A} : M A := fun m => (OutOfFuel A, m).

(** A call into the surroundings. *)
Definition lift {A} (f : Env -> A * Env) : M A :=
  fun m => let (a, e) := f (env m) in
           (Returned a, {| gov := gov m; env := e |}).

(** [defer cleanup()] followed by [body]: the deferred call runs when
    the body exits, by return or by panic. *)
Definition deferred {A} (cleanup : M unit) (body : M A) : M A :=
  fun m =>
    match body m with
    | (Returned a, m1) =>
        match cleanup m1 with
        | (Returned _, m2) => (Returned a, m2)
        | (Panicked _ msg, m2) => (Panicked A msg, m2)
        | (OutOfFuel _, m2) => (OutOfFuel A, m2)
        end
    | (Panicked _ msg, m1) => (Panicked A msg, snd (cleanup m1))
    | (OutOfFuel _, m1) => (OutOfFuel A, m1)
    end.

(** Reads and writes of the governor's fields. *)
Definition get_process : M H := fun m => (Returned (process (gov m)), m).

Definition set_process (p : H) : M unit :=
  fun m => (Returned tt,
            {| gov := {| process := p; mu := mu (gov m) |}; env := env m |}).

Definition set_mu (s : Mutex) : M unit :=
  fun m => (Returned tt,
            {| gov := {| process := process (gov m); mu := s |}; env := env m |}).

Definition emit (ev : Event) (e : Env) : Env :=
  {| world := world e; trace := trace e ++ [ev]; logs := logs e |}.

Definition with_world (w : W) (e : Env) : Env :=
  {| world := w; trace := trace e; logs := logs e |}.

Definition logf (l : level) (msg : string) (e : Env) : unit * Env :=
  (tt, {| world := world e; trace := trace e; logs := logs e ++ [(l, msg)] |}).

End Machine.

Arguments EvLock {H} ctx.
Arguments EvUnlock {H}.
Arguments Returned {A} a.
Arguments Panicked {A} msg.
Arguments OutOfFuel {A}.
Arguments ret {W H A} a _.
Arguments panic {W H A} msg _.
Arguments out_of_fuel {W H A} _.
Arguments get_process {W H} _.
Arguments set_process {W H} p _.
Arguments set_mu {W H} s _.
Arguments logf {W H} l msg e.
Arguments with_world {W H} w e.

Declare Scope gov_scope.
Delimit Scope gov_scope with gov.
Notation "x <- c ;; k" := (bind c (fun x => k))
  (at level 61, c at next level, right associativity) : gov_scope.
Notation "c ;;; k" := (bind c (fun _ => k))
  (at level 61, right associativity) : gov_scope.

(** ** Observations on a run *)

Section Observations.

Context {W H : Type}.

(** The machine after the surroundings moved to [w] and the calls
    [evs] were observed. *)
Definition observe (evs : list (Event H)) (w : W) (m : Machine W H)
  : Machine W H :=
  {| gov := gov m;
     env := {| world := w;
               trace := trace (env m) ++ evs;
               logs := logs (env m) |} |}.

(** The machine after a line was logged. *)
Definition logged (l : level) (msg : string) (m : Machine W H)
  : Machine W H :=
  {| gov := gov m;
     env := {| world := world (env m);
               trace := trace (env m);
               logs := logs (env m) ++ [(l, msg)] |} |}.

(** The machine after [g.process = q]. *)
Definition with_process (q : H) (m : Machine W H) : Machine W H :=
  {| gov := {| process := q; mu := mu (gov m) |}; env := env m |}.

(** The machine after the mutex was taken under [ctx] in world [w],
    and after it was released. *)
Definition acquired (ctx : context) (w : W) (m : Machine W H)
  : Machine W H :=
  {| gov := {| process := process (gov m); mu := {| locked := true |} |};
     env := {| world := w;
               trace := trace (env m) ++ [EvLock ctx];
               logs := logs (env m) |} |}.

Definition released (m : Machine W H) : Machine W H :=
  {| gov := {| process := process (gov m); mu := {| locked := false |} |};
     env := {| world := world (env m);
               trace := trace (env m) ++ [EvUnlock];
               logs := logs (env m) |} |}.

Definition is_lock (ev : Event H) : bool :=
  match ev with EvLock _ => true | _ => false end.
Definition is_unlock (ev : Event H) : bool :=
  match ev with EvUnlock => true | _ => false end.
Definition is_send (ev : Event H) : bool :=
  match ev with EvSend _ _ _ => true | _ => false end.
Definition is_receive (ev : Event H) : bool :=
  match ev with EvReceive _ _ => true | _ => false end.
Definition is_spawn (ev : Event H) : bool :=
  match ev with EvSpawn _ => true | _ => false end.
Definition is_wait (ev : Event H) : bool :=
  match ev with EvWait _ => true | _ => false end.
Definition is_kill (ev : Event H) : bool :=
  match ev with EvKill _ => true | _ => false end.

(** Calls on the mutex, as opposed to calls on a process. *)
Definition is_mutex (ev : Event H) : bool := is_lock ev || is_unlock ev.

(** How many of the events satisfy [f]. *)
Definition count (f : Event H -> bool) (evs : list (Event H)) : nat :=
  List.length (filter f evs).

(** What the retry loop running for [ctx] and [data] may observe: a
    Send of [data] under [ctx], a Receive under [ctx], a Wait or a
    Spawn. *)
Definition loop_event (ctx : context) (data : bytes) (ev : Event H) : Prop :=
  match ev with
  | EvSend _ c d => c = ctx /\ d = data
  | EvReceive _ c => c = ctx
  | EvWait _ | EvSpawn _ => True
  | EvLock _ | EvUnlock | EvKill _ => False
  end.

(** The events [evs] of one call that took the mutex under [ctx]: the
    acquisition comes first, the release last, and the mutex is not
    touched in between. *)
Definition critical_section (ctx : context) (evs : list (Event H)) : Prop :=
  exists inside,
    evs = EvLock ctx :: inside ++ [EvUnlock]
    /\ Forall (fun ev => is_mutex ev = false) inside.

End Observations.

(** ** The governor *)

Section Governor.

Context {W H : Type} {P : Proc.Process W H} {R : Runtime.Runtime W}.

Local Open Scope gov_scope.

#[local] Abbreviation Env := (Env W H).
#[local] Abbreviation M := (M W H).

(** [ctx.Err()]: [nil] for the background context. *)
Definition Err (ctx : context) (w : W) : option error :=
  match ctx with
  | Background => None
  | Derived id => Runtime.ctx_err id w
  end.

(** The [select] of governor.go:73-77: the context's error when
    [ctx.Done()] is ready, otherwise the [default] branch. *)
Definition ctx_done (ctx : context) : M (option error) :=
  fun m => (Returned (Err ctx (world (env m))), m).

(** Method calls on a process handle; each is recorded in the trace. *)
Definition call_Send (p : H) (ctx : context) (data : bytes) (e : Env)
  : option error * Env :=
  let (r, w) := Proc.Send p ctx data (world e) in
  (r, with_world w (emit (EvSend p ctx data) e)).

Definition call_Receive (p : H) (ctx : context) (e : Env)
  : (bytes * option error) * Env :=
  let (r, w) := Proc.Receive p ctx (world e) in
  (r, with_world w (emit (EvReceive p ctx) e)).

Definition call_Spawn (p : H) (e : Env) : Proc.spawned H * Env :=
  let (r, w) := Proc.Spawn p (world e) in
  (r, with_world w (emit (EvSpawn p) e)).

Definition call_Kill (p : H) (e : Env) : unit * Env :=
  (tt, with_world (Proc.Kill p (world e)) (emit (EvKill p) e)).

Definition call_Wait (p : H) (e : Env) : option error * Env :=
  let (r, w) := Proc.Wait p (world e) in
  (r, with_world w (emit (EvWait p) e)).

(** Modelled from the spec: [Mutex.Lock], whose source file is not
    part of the sources at hand.  "Blocks until acquired or ctx is
    cancelled/expired, whichever first; on cancellation returns the
    ctx error and no lock is held.  On success, returns a release
    callback that unblocks the next waiter."  The call blocks until
    [Runtime.lock_wait]; when the context is not done at that moment
    the mutex has been obtained, and when it is done the runtime tells
    which of the two came first. *)
Definition Lock (ctx : context) : M (release * option error) :=
  fun m =>
    let w := Runtime.lock_wait ctx (world (env m)) in
    let held :=
      {| gov := {| process := process (gov m); mu := {| locked := true |} |};
         env := with_world w (emit (EvLock ctx) (env m)) |} in
    let missed := {| gov := gov m; env := with_world w (env m) |} in
    match Err ctx w with
    | None => (Returned (unlock, None), held)
    | Some e =>
        if Runtime.lock_won ctx w
        then (Returned (unlock, None), held)
        else (Returned (nil_func, Some e), missed)
    end.

(** Modelled from the spec: the release callback of [Mutex.Lock]
    frees the mutex for the next waiter. *)
Definition Unlock : M unit :=
  set_mu {| locked := false |} ;;;
  lift (fun e => (tt, emit EvUnlock e)).

(** Calling a function value: a [nil] function panics. *)
Definition call (f : release) : M unit :=
  match f with
  | nil_func => panic "invalid memory address or nil pointer dereference"
  | unlock => Unlock
  end.

(** [func Govern(process Process)], returning a [Governor] pointer
    and an error,
    governor.go:53-61. *)
Definition Govern (template : H) (e : Env)
  : (option (Governor H) * option error) * Env :=
  let (r, e1) := call_Spawn template e in
  match r with
  | Proc.Failed err => ((None, Some (Wrap err "spawn")), e1)
  | Proc.Started p =>
      let (_, e2) :=
        logf DEBUG (Proc.String p ++ " started successfully")%string e1 in
      ((Some {| process := p; mu := {| locked := false |} |}, None), e2)
  end.

(** [func (g *Governor) exchange(ctx, data) ([]byte, error)],
    governor.go:108-114: one Send, then one Receive unless the Send
    failed. *)
Definition exchange (ctx : context) (data : bytes)
  : M (bytes * option error) :=
  p <- get_process ;;
  serr <- lift (call_Send p ctx data) ;;
  match serr with
  | Some err => ret (nil_bytes, Some err)
  | None =>
      p' <- get_process ;;
      lift (call_Receive p' ctx)
  end.

(** The part of the loop body of [Exchange] that runs when the attempt
    failed with [err], governor.go:84-104.  [retry] is the next
    iteration of the loop ([continue]). *)
Definition on_error (retry : M (bytes * option error)) (err : error)
  : M (bytes * option error) :=
  p <- get_process ;;
  lift (logf WARN (Proc.String p ++ " exchange error: " ++ Error err)%string) ;;;
  if transport_failure err then
    old <- get_process ;;
    werr <- lift (call_Wait old) ;;
    match werr with
    | Some err' => ret (nil_bytes, Some err')
    | None =>
        old' <- get_process ;;
        s <- lift (call_Spawn old') ;;
        match s with
        | Proc.Failed err' => ret (nil_bytes, Some (Wrap err' "respawn"))
        | Proc.Started process' =>
            cur <- get_process ;;
            lift (logf DEBUG (Proc.String cur ++ " respawned as "
                              ++ Proc.String process')%string) ;;;
            set_process process' ;;;
            retry
        end
    end
  else ret (nil_bytes, Some err).

(** The [for] loop of [Exchange], governor.go:72-105.  The loop has no
    bound of its own; [fuel] bounds the number of iterations the model
    follows.  The [data] bound by [:=] inside the body is a new
    variable of the body's block: the argument [data] is what every
    iteration sends. *)
Fixpoint Exchange_loop (fuel : nat) (ctx : context) (data : bytes)
  : M (bytes * option error) :=
  match fuel with
  | O => out_of_fuel
  | S fuel' =>
      done <- ctx_done ctx ;;
      match done with
      | Some cerr => ret (nil_bytes, Some cerr)
      | None =>
          r <- exchange ctx data ;;
          let (data', err) := r in
          match err with
          | None => ret (data', None)
          | Some err' => on_error (Exchange_loop fuel' ctx data) err'
          end
      end
  end.

(** [func (g *Governor) Exchange(ctx, data) ([]byte, error)],
    governor.go:64-106. *)
Definition Exchange (fuel : nat) (ctx : context) (data : bytes)
  : M (bytes * option error) :=
  l <- Lock ctx ;;
  let (cancel, err) := l in
  match err with
  | Some lerr => ret (nil_bytes, Some lerr)
  | None => deferred (call cancel) (Exchange_loop fuel ctx data)
  end.

(** [func (g *Governor) ExchangeDirect(ctx, data) ([]byte, error)],
    governor.go:116-124. *)
Definition ExchangeDirect (ctx : context) (data : bytes)
  : M (bytes * option error) :=
  l <- Lock ctx ;;
  let (cancel, err) := l in
  match err with
  | Some lerr => ret (nil_bytes, Some lerr)
  | None => deferred (call cancel) (exchange ctx data)
  end.

(** [func (g *Governor) Kill()], governor.go:127-131.  The error of
    [Lock] is dropped. *)
Definition Kill : M unit :=
  l <- Lock Background ;;
  let (cancel, _) := l in
  deferred (call cancel)
    (p <- get_process ;; lift (call_Kill p)).

(** [func (g *Governor) Wait() error], governor.go:134-143. *)
Definition Wait : M (option error) :=
  l <- Lock Background ;;
  let (cancel, _) := l in
  deferred (call cancel)
    (p <- get_process ;;
     werr <- lift (call_Wait p) ;;
     match werr with
     | Some err => ret (Some err)
     | None =>
         p' <- get_process ;;
         lift (logf DEBUG (Proc.String p' ++ " completed successfully")%string) ;;;
         ret None
     end).

(** [func (g *Governor) String() string], governor.go:145-147. *)
Definition String_ (g : Governor H) : string := Proc.String (process g).

(** The lock discipline of a call that took the machine from [m] to
    [m'] and locks under [ctx]: when [Lock] fails the call observes
    nothing, and when it succeeds the call's events are one critical
    section; either way as many releases as acquisitions. *)
Definition lock_guarded (ctx : context) (m m' : Machine W H) : Prop :=
  exists evs,
    trace (env m') = trace (env m) ++ evs
    /\ count is_lock evs = count is_unlock evs
    /\ ((exists cancel lerr m1,
           Lock ctx m = (Returned (cancel, Some lerr), m1)
           /\ evs = [])
        \/ (exists cancel m1,
              Lock ctx m = (Returned (cancel, None), m1)
              /\ critical_section ctx evs
              /\ count is_lock evs = 1
              /\ count is_unlock evs = 1)).

End Governor.

(** ** The runs of the retry loop as a relation *)

Section Runs_of_the_loop.

Context {W H : Type} {P : Proc.Process W H} {R : Runtime.Runtime W}.

(** The warning of governor.go:84 and the debug line of governor.go:99. *)
Definition warn_exchange_error (err : error) (m : Machine W H) : Machine W H :=
  logged WARN (Proc.String (process (gov m)) ++ " exchange error: "
               ++ Error err)%string m.

Definition debug_respawned (old new : H) (m : Machine W H) : Machine W H :=
  logged DEBUG (Proc.String old ++ " respawned as " ++ Proc.String new)%string m.

(** [loop_run ctx data m o m']: the loop of [Exchange], entered with the
    machine [m], is left with the outcome [o] and the machine [m'].
    One constructor for each way out of the loop body (governor.go:72-105),
    one for [continue], and one for a run that is cut short. *)
Inductive loop_run (ctx : context) (data : bytes)
  : Machine W H -> outcome (bytes * option error) -> Machine W H -> Prop :=
| run_cut_short (m : Machine W H) :
    loop_run ctx data m OutOfFuel m
| run_context_done (m : Machine W H) (cerr : error) :
    Err ctx (world (env m)) = Some cerr ->
    loop_run ctx data m (Returned (nil_bytes, Some cerr)) m
| run_answered (m m1 : Machine W H) (resp : bytes) :
    Err ctx (world (env m)) = None ->
    exchange ctx data m = (Returned (resp, None), m1) ->
    loop_run ctx data m (Returned (resp, None)) m1
| run_rejected (m m1 : Machine W H) (junk : bytes) (err : error) :
    Err ctx (world (env m)) = None ->
    exchange ctx data m = (Returned (junk, Some err), m1) ->
    transport_failure err = false ->
    loop_run ctx data m (Returned (nil_bytes, Some err))
             (warn_exchange_error err m1)
| run_reap_failed (m m1 : Machine W H) (junk : bytes) (err werr : error)
                  (w1 : W) :
    Err ctx (world (env m)) = None ->
    exchange ctx data m = (Returned (junk, Some err), m1) ->
    transport_failure err = true ->
    Proc.Wait (process (gov m1)) (world (env m1)) = (Some werr, w1) ->
    loop_run ctx data m (Returned (nil_bytes, Some werr))
             (observe [EvWait (process (gov m1))] w1
                      (warn_exchange_error err m1))
| run_respawn_failed (m m1 : Machine W H) (junk : bytes) (err serr : error)
                     (w1 w2 : W) :
    Err ctx (world (env m)) = None ->
    exchange ctx data m = (Returned (junk, Some err), m1) ->
    transport_failure err = true ->
    Proc.Wait (process (gov m1)) (world (env m1)) = (None, w1) ->
    Proc.Spawn (process (gov m1)) w1 = (Proc.Failed serr, w2) ->
    loop_run ctx data m (Returned (nil_bytes, Some (Wrap serr "respawn")))
             (observe [EvWait (process (gov m1)); EvSpawn (process (gov m1))] w2
                      (warn_exchange_error err m1))
| run_respawned (m m1 : Machine W H) (junk : bytes) (err : error)
                (w1 w2 : W) (q : H)
                (o : outcome (bytes * option error)) (m' : Machine W H) :
    Err ctx (world (env m)) = None ->
    exchange ctx data m = (Returned (junk, Some err), m1) ->
    transport_failure err = true ->
    Proc.Wait (process (gov m1)) (world (env m1)) = (None, w1) ->
    Proc.Spawn (process (gov m1)) w1 = (Proc.Started q, w2) ->
    loop_run ctx data
             (with_process q
                (debug_respawned (process (gov m1)) q
                   (observe [EvWait (process (gov m1)); EvSpawn (process (gov m1))]
                            w2 (warn_exchange_error err m1))))
             o m' ->
    loop_run ctx data m o m'.

(** Events in which every Spawn comes directly after a Wait on the
    handle it is called on. *)
Inductive reaped_first : list (Event H) -> Prop :=
| reaped_nil : reaped_first []
| reaped_other (ev : Event H) (rest : list (Event H)) :
    is_spawn ev = false ->
    reaped_first rest ->
    reaped_first (ev :: rest)
| reaped_respawn (p : H) (rest : list (Event H)) :
    reaped_first rest ->
    reaped_first (EvWait p :: EvSpawn p :: rest).

End Runs_of_the_loop.

(** ** A deterministic fake process for concrete runs *)

Module Fake.

(** What the fake worker and the fake clock do.  Handles are numbers:
    [0] is the template handed to [Govern] and the [n]-th spawned
    process is [n]. *)
Record Plan : Type := {
  plan_send : nat -> bytes -> option error;
  plan_receive : nat -> option bytes -> bytes * option error;
  plan_wait : nat -> option error;
  plan_spawn : nat -> option error;
  plan_deadline : nat -> option nat;
  plan_lock_won : bool
}.

(** The fake world: the number of processes spawned so far, the last
    request written and not yet answered, the processes killed, and a
    clock that ticks once for every Send and Receive. *)
Record World : Type := {
  spawn_count : nat;
  pending : option bytes;
  killed : list nat;
  now : nat
}.

Definition boot : World :=
  {| spawn_count := 0; pending := None; killed := []; now := 0 |}.

Definition fake_Send (pl : Plan) (p : nat) (_ : context) (data : bytes) (w : World)
  : option error * World :=
  match plan_send pl p data with
  | Some err =>
      (Some err,
       {| spawn_count := spawn_count w; pending := pending w;
          killed := killed w; now := S (now w) |})
  | None =>
      (None,
       {| spawn_count := spawn_count w; pending := Some data;
          killed := killed w; now := S (now w) |})
  end.

Definition fake_Receive (pl : Plan) (p : nat) (_ : context) (w : World)
  : (bytes * option error) * World :=
  (plan_receive pl p (pending w),
   {| spawn_count := spawn_count w; pending := None;
      killed := killed w; now := S (now w) |}).

Definition fake_Spawn (pl : Plan) (_ : nat) (w : World)
  : Proc.spawned nat * World :=
  match plan_spawn pl (spawn_count w) with
  | Some err => (Proc.Failed err, w)
  | None =>
      (Proc.Started (S (spawn_count w)),
       {| spawn_count := S (spawn_count w); pending := None;
          killed := killed w; now := now w |})
  end.

Definition fake_Kill (p : nat) (w : World) : World :=
  {| spawn_count := spawn_count w; pending := pending w;
     killed := p :: killed w; now := now w |}.

Definition fake_Wait (pl : Plan) (p : nat) (w : World) : option error * World :=
  (plan_wait pl p, w).

Definition fake_String (p : nat) : string :=
  match p with
  | 0 => "template"
  | 1 => "worker#1"
  | 2 => "worker#2"
  | _ => "worker#n"
  end.

#[local] Instance fake_process (pl : Plan) : Proc.Process World nat := {
  Proc.Send := fake_Send pl;
  Proc.Receive := fake_Receive pl;
  Proc.String := fake_String;
  Proc.Spawn := fake_Spawn pl;
  Proc.Kill := fake_Kill;
  Proc.Wait := fake_Wait pl
}.

(** An uncontended mutex and contexts with a deadline on the fake
    clock. *)
#[local] Instance fake_runtime (pl : Plan) : Runtime.Runtime World := {
  Runtime.ctx_err := fun id w =>
    match plan_deadline pl id with
    | Some t => if Nat.leb t (now w) then Some DeadlineExceeded else None
    | None => None
    end;
  Runtime.lock_wait := fun _ w => w;
  Runtime.lock_won := fun _ _ => plan_lock_won pl
}.

Definition start : Env World nat :=
  {| world := boot; trace := []; logs := [] |}.

(** The machine after a successful [Govern]. *)
Definition governed (pl : Plan) : option (Machine World nat) :=
  match Govern (P := fake_process pl) 0 start with
  | ((Some g, _), e) => Some {| gov := g; env := e |}
  | _ => None
  end.

(** The machine a successful [Govern] of the template leaves. *)
Definition after_Govern : Machine World nat :=
  {| gov := {| process := 1; mu := {| locked := false |} |};
     env := {| world := {| spawn_count := 1; pending := None;
                           killed := []; now := 0 |};
               trace := [EvSpawn 0];
               logs := [(DEBUG, "worker#1 started successfully")] |} |}.

(** The machine after [Lock] took the mutex under [ctx] right after
    [Govern]. *)
Definition after_Lock (ctx : context) : Machine World nat :=
  acquired ctx (world (env after_Govern)) after_Govern.

(** The governor's operations against the fake of a plan. *)
Definition Err_on (pl : Plan) := Err (R := fake_runtime pl).
Definition Lock_on (pl : Plan) := Lock (H := nat) (R := fake_runtime pl).
Definition exchange_on (pl : Plan) := exchange (P := fake_process pl).
Definition Exchange_loop_on (pl : Plan) :=
  Exchange_loop (P := fake_process pl) (R := fake_runtime pl).
Definition Exchange_on (pl : Plan) :=
  Exchange (P := fake_process pl) (R := fake_runtime pl).
Definition ExchangeDirect_on (pl : Plan) :=
  ExchangeDirect (P := fake_process pl) (R := fake_runtime pl).
Definition Kill_on (pl : Plan) := Kill (P := fake_process pl) (R := fake_runtime pl).
Definition Wait_on (pl : Plan) := Wait (P := fake_process pl) (R := fake_runtime pl).

(** Payloads and errors of the scenarios. *)
Definition Q : bytes := [Byte.x51].
Definition R1 : bytes := [Byte.x52; Byte.x31].
Definition R2 : bytes := [Byte.x52; Byte.x32].
Definition ErrBadRequest : error := New 7 "bad request".
Definition ErrNoChild : error := New 8 "wait: no child processes".
Definition ErrForkFailed : error := New 9 "fork/exec: resource temporarily unavailable".
Definition EPIPE : error := New 32 "broken pipe".
Definition ErrClosed : error := New 33 "file already closed".

(** An error of a type with a method [Is(target error) bool] that
    answers [true] for [io.EOF]; it is not [io.EOF], has no [Unwrap]
    method, and its message names neither signature. *)
Definition eofLike : error := Custom 60 "stream ended" [id_EOF].

(** A healthy worker: it answers [Q] with [R1]. *)
Definition healthy : Plan :=
  {| plan_send := fun _ _ => None;
     plan_receive := fun _ _ => (R1, None);
     plan_wait := fun _ => None;
     plan_spawn := fun _ => None;
     plan_deadline := fun _ => None;
     plan_lock_won := false |}.

(** The first worker's channel dies while it is read (the bytes read
    so far come back with the error); the second worker answers [Q]
    with [R2]. *)
Definition recover : Plan :=
  {| plan_send := fun _ _ => None;
     plan_receive := fun p req =>
       match p with
       | 1 => (R1, Some io_EOF)
       | _ => match req with
              | Some _ => (R2, None)
              | None => (nil_bytes, Some io_EOF)
              end
       end;
     plan_wait := fun _ => None;
     plan_spawn := fun _ => None;
     plan_deadline := fun _ => None;
     plan_lock_won := false |}.

(** The first worker's channel ends with [eofLike] while it is read;
    the second worker answers [Q] with [R2]. *)
Definition eof_like : Plan :=
  {| plan_send := fun _ _ => None;
     plan_receive := fun p _ =>
       match p with
       | 1 => (nil_bytes, Some eofLike)
       | _ => (R2, None)
       end;
     plan_wait := fun _ => None;
     plan_spawn := fun _ => None;
     plan_deadline := fun _ => None;
     plan_lock_won := false |}.

(** The first worker's pipe is broken already when it is written. *)
Definition broken_pipe : Plan :=
  {| plan_send := fun p _ =>
       match p with
       | 1 => Some (Chain "write |1: broken pipe" EPIPE)
       | _ => None
       end;
     plan_receive := fun _ _ => (R2, None);
     plan_wait := fun _ => None;
     plan_spawn := fun _ => None;
     plan_deadline := fun _ => None;
     plan_lock_won := false |}.

(** The worker rejects the request when it is sent. *)
Definition bad_request : Plan :=
  {| plan_send := fun _ _ => Some ErrBadRequest;
     plan_receive := fun _ _ => (R1, None);
     plan_wait := fun _ => None;
     plan_spawn := fun _ => None;
     plan_deadline := fun _ => None;
     plan_lock_won := false |}.

(** The channel is dead and the old process cannot be reaped. *)
Definition reap_fails : Plan :=
  {| plan_send := fun _ _ => None;
     plan_receive := fun _ _ => (nil_bytes, Some io_EOF);
     plan_wait := fun _ => Some ErrNoChild;
     plan_spawn := fun _ => None;
     plan_deadline := fun _ => None;
     plan_lock_won := false |}.

(** The channel is dead and no replacement can be started (the first
    spawn, by [Govern], succeeds). *)
Definition respawn_fails : Plan :=
  {| plan_send := fun _ _ => None;
     plan_receive := fun _ _ => (nil_bytes, Some io_EOF);
     plan_wait := fun _ => None;
     plan_spawn := fun n => match n with 0 => None | _ => Some ErrForkFailed end;
     plan_deadline := fun _ => None;
     plan_lock_won := false |}.

(** Every worker's channel is dead and context [1] expires at tick
    [2], after the first attempt. *)
Definition expiring : Plan :=
  {| plan_send := fun _ _ => None;
     plan_receive := fun _ _ => (nil_bytes, Some io_EOF);
     plan_wait := fun _ => None;
     plan_spawn := fun _ => None;
     plan_deadline := fun id => match id with 1 => Some 2 | _ => Some 0 end;
     plan_lock_won := true |}.

(** The worker rejects the request after it has written part of an
    answer: [Receive] returns bytes and [ErrBadRequest] together. *)
Definition partial_answer : Plan :=
  {| plan_send := fun _ _ => None;
     plan_receive := fun _ _ => (R1, Some ErrBadRequest);
     plan_wait := fun _ => None;
     plan_spawn := fun _ => None;
     plan_deadline := fun _ => None;
     plan_lock_won := false |}.

(** Every worker's channel is dead, every reap and every spawn
    succeeds, and no context ever expires. *)
Definition always_dead : Plan :=
  {| plan_send := fun _ _ => None;
     plan_receive := fun _ _ => (nil_bytes, Some io_EOF);
     plan_wait := fun _ => None;
     plan_spawn := fun _ => None;
     plan_deadline := fun _ => None;
     plan_lock_won := false |}.

(** No process can be started at all: the very first spawn, the one
    [Govern] makes, fails. *)
Definition never_starts : Plan :=
  {| plan_send := fun _ _ => None;
     plan_receive := fun _ _ => (R1, None);
     plan_wait := fun _ => None;
     plan_spawn := fun _ => Some ErrForkFailed;
     plan_deadline := fun _ => None;
     plan_lock_won := false |}.

(** A healthy worker behind a mutex that stays taken until every
    derived context has expired. *)
Definition contended : Plan :=
  {| plan_send := fun _ _ => None;
     plan_receive := fun _ _ => (R1, None);
     plan_wait := fun _ => None;
     plan_spawn := fun _ => None;
     plan_deadline := fun _ => Some 0;
     plan_lock_won := false |}.

End Fake.

(** * Event enrichment, [package events]

    [EnrichWithEventId] and [EnrichWithCollection] write into the
    [map[string]interface{}] they are given.  (The third function of
    the file, [EnrichWithTimeInterval], is present in two overlapping
    versions in the sources and is left out.) *)

Module Events.

(** A Go value held in an [interface{}]: the nil interface, a string, a
    [map[string]interface{}] (which may be the nil map), or a value of
    any other type.  A map that is not nil is given by its lookup
    function.  Values are taken to be trees: an inner map is reachable
    through its key only, and the result of a call is the object read
    after it.  This is the view of an event as the JSON decoder builds
    it; [SharedEvents] below has the maps in a store, for events in
    which a map is held twice or holds itself. *)
#[warnings="-register-all"]
Inductive value : Type :=
| VNil
| VString (s : string)
| VMap (m : option (string -> option value))
| VOther (tag : nat).

(** The entries of a map that is not nil. *)
Definition fields : Type := string -> option value.

Definition empty : fields := fun _ => None.

(** [m[k] = v]. *)
Definition store (m : fields) (k : string) (v : value) : fields :=
  fun k' => if String.eqb k k' then Some v else m k'.

(** The constants of the file. *)
Definition EventnKey : string := "eventn_ctx".
Definition collectionIdKey : string := "collection_id".
Definition TimeChunkKey : string := "time_interval".
Definition EventIdKey : string := "event_id".
Definition EventnCtxEventId : string := "eventn_ctx_event_id".

(** [val == ""] for [val] an [interface{}]: true for the empty string
    only. *)
Definition is_empty_string (v : value) : bool :=
  match v with
  | VString s => String.eqb s ""
  | _ => false
  end.

(** [func EnrichWithEventId(object map[string]interface{}, eventId string)].
    The argument is [None] for the nil map.  The result is the content
    of [object] after the call, or [None] when the call panics
    (assignment to an entry of a nil map). *)
Definition EnrichWithEventId (object : option fields) (eventId : string)
  : option fields :=
  match object with
  | None => None
  | Some o =>
      match o EventnKey with
      | None =>
          Some (store o EventnKey
                  (VMap (Some (store empty EventIdKey (VString eventId)))))
      | Some (VMap None) => None
      | Some (VMap (Some eventn)) =>
          match eventn EventIdKey with
          | None =>
              Some (store o EventnKey
                      (VMap (Some (store eventn EventIdKey (VString eventId)))))
          | Some val =>
              if is_empty_string val
              then Some (store o EventnKey
                           (VMap (Some (store eventn EventIdKey
                                          (VString eventId)))))
              else Some o
          end
      | Some _ => Some (store o EventnCtxEventId (VString eventId))
      end
  end.

(** [func EnrichWithCollection(object map[string]interface{}, collection string)]. *)
Definition EnrichWithCollection (object : option fields) (collection : string)
  : option fields :=
  match object with
  | None => None
  | Some o =>
      match o EventnKey with
      | None =>
          Some (store o EventnKey
                  (VMap (Some (store empty collectionIdKey (VString collection)))))
      | Some (VMap None) => None
      | Some (VMap (Some eventn)) =>
          match eventn collectionIdKey with
          | None =>
              Some (store o EventnKey
                      (VMap (Some (store eventn collectionIdKey
                                     (VString collection)))))
          | Some _ => Some o
          end
      | Some _ =>
          Some (store o (EventnKey ++ "_" ++ collectionIdKey)%string
                  (VString collection))
      end
  end.

(** Two maps that hold the same entries, looking one map deep. *)
Definition same_entries (a b : fields) : Prop :=
  forall k,
    a k = b k
    \/ exists ea eb,
        a k = Some (VMap (Some ea))
        /\ b k = Some (VMap (Some eb))
        /\ forall k', ea k' = eb k'.

(** An event as the JSON decoder builds it. *)
Definition sample_event : fields :=
  store (store empty "event_type" (VString "pageview"))
        EventnKey (VMap (Some (store empty "url" (VString "/")))).

(** The same event once it carries an event id and a collection. *)
Definition enriched_event (eventId collection : string) : fields :=
  store (store empty "event_type" (VString "pageview"))
        EventnKey
        (VMap (Some (store (store (store empty "url" (VString "/"))
                                  EventIdKey (VString eventId))
                           collectionIdKey (VString collection)))).

(** An event whose "eventn_ctx" is not a map. *)
Definition flat_event : fields :=
  store (store empty "event_type" (VString "pageview"))
        EventnKey (VString "legacy").

End Events.

(** * Event enrichment over shared maps

    A Go map value is a reference: two keys, or two variables, may hold
    the same map, and a map may hold itself.  Here the maps live in a
    store and a value of map type is the address of one of them, so
    that a write through one reference is seen through every other. *)

Module SharedEvents.

(** The address of a map in the store. *)
Definition ref : Type := nat.

(** A Go value held in an [interface{}]: the nil interface, a string, a
    [map[string]interface{}] (the nil map, or the address of a map), or
    a value of any other type. *)
Inductive value : Type :=
| VNil
| VString (s : string)
| VMap (r : option ref)
| VOther (tag : nat).

(** The entries of one map. *)
Definition fields : Type := string -> option value.

Definition empty : fields := fun _ => None.

Definition store (m : fields) (k : string) (v : value) : fields :=
  fun k' => if String.eqb k k' then Some v else m k'.

(** The store: the maps made so far, and the address the next map made
    will get. *)
Record heap : Type := {
  maps : ref -> option fields;
  next : ref
}.

(** [v, ok := m[k]] for the map value [m].  Reading the nil map finds
    nothing.  (An address at which no map was made does not occur in a
    Go program; it reads and writes like the nil map.) *)
Definition lookup (h : heap) (m : option ref) (k : string) : option value :=
  match m with
  | None => None
  | Some a =>
      match maps h a with
      | Some f => f k
      | None => None
      end
  end.

(** [m[k] = v]; [None] is the panic of a write to the nil map. *)
Definition write (h : heap) (m : option ref) (k : string) (v : value)
  : option heap :=
  match m with
  | None => None
  | Some a =>
      match maps h a with
      | Some f =>
          Some {| maps := fun a' => if Nat.eqb a' a then Some (store f k v)
                                    else maps h a';
                  next := next h |}
      | None => None
      end
  end.

(** A map literal: a new map with the entries [f]. *)
Definition make (h : heap) (f : fields) : ref * heap :=
  (next h,
   {| maps := fun a' => if Nat.eqb a' (next h) then Some f else maps h a';
      next := S (next h) |}).

Definition is_empty_string (v : value) : bool :=
  match v with
  | VString s => String.eqb s ""
  | _ => false
  end.

(** [func EnrichWithEventId(object map[string]interface{}, eventId string)]:
    the store after the call, or [None] when the call panics. *)
Definition EnrichWithEventId (h : heap) (object : option ref) (eventId : string)
  : option heap :=
  match lookup h object Events.EventnKey with
  | None =>
      let (eventnObject, h1) :=
        make h (store empty Events.EventIdKey (VString eventId)) in
      write h1 object Events.EventnKey (VMap (Some eventnObject))
  | Some (VMap eventn) =>
      match lookup h eventn Events.EventIdKey with
      | None => write h eventn Events.EventIdKey (VString eventId)
      | Some val =>
          if is_empty_string val
          then write h eventn Events.EventIdKey (VString eventId)
          else Some h
      end
  | Some _ => write h object Events.EventnCtxEventId (VString eventId)
  end.

(** [func EnrichWithCollection(object map[string]interface{}, collection string)]. *)
Definition EnrichWithCollection (h : heap) (object : option ref)
           (collection : string) : option heap :=
  match lookup h object Events.EventnKey with
  | None =>
      let (eventnObject, h1) :=
        make h (store empty Events.collectionIdKey (VString collection)) in
      write h1 object Events.EventnKey (VMap (Some eventnObject))
  | Some (VMap eventn) =>
      match lookup h eventn Events.collectionIdKey with
      | None => write h eventn Events.collectionIdKey (VString collection)
      | Some _ => Some h
      end
  | Some _ =>
      write h object (Events.EventnKey ++ "_" ++ Events.collectionIdKey)%string
            (VString collection)
  end.

(** What a call wrote: it changed the store [h] into [h'] by one write,
    of the entry [k] of the map at [a].  Every other map that existed
    is as it was, the map at [a] is as it was at every other key, and
    no map has gone. *)
Definition one_write (h h' : heap) (a : ref) (k : string) : Prop :=
  (forall a', a' < next h -> a' <> a -> maps h' a' = maps h a')
  /\ (forall k', k' <> k -> lookup h' (Some a) k' = lookup h (Some a) k')
  /\ next h <= next h'.

(** A store as a Go program has it: no map sits at an address that has
    not been given out yet. *)
Definition well_formed (h : heap) : Prop :=
  forall a, next h <= a -> maps h a = None.

(** A map value of the program: the nil map, or a map of the store. *)
Definition refers (h : heap) (m : option ref) : Prop :=
  match m with
  | None => True
  | Some a => maps h a <> None
  end.

(** An event whose inner map is held under two keys, and an event that
    holds itself under "eventn_ctx". *)
Definition aliased : heap :=
  {| maps := fun a =>
       match a with
       | 0 => Some (store (store empty "backup" (VMap (Some 1)))
                          Events.EventnKey (VMap (Some 1)))
       | 1 => Some (store empty "url" (VString "/"))
       | _ => None
       end;
     next := 2 |}.

Definition cyclic : heap :=
  {| maps := fun a =>
       match a with
       | 0 => Some (store empty Events.EventnKey (VMap (Some 0)))
       | _ => None
       end;
     next := 1 |}.

End SharedEvents.

(** * Redis keys of the authorization store *)

Module AuthKeys.

Definition usersIndexKey : string := "users_index".

(** [func userKey(userID string) string]. *)
Definition userKey (userID : string) : string := ("user#" ++ userID)%string.

(** [func resetKey(resetID string) string]. *)
Definition resetKey (resetID : string) : string :=
  ("password_reset#" ++ resetID)%string.

End AuthKeys.

(** * Properties *)

Unset Implicit Arguments.

(** ** Strings and the error classification *)

Lemma prefix_iff (a s : string) :
  String.prefix a s = true <-> exists rest, s = (a ++ rest)%string.
Proof.
  revert s; induction a as [|c a IH]; intros s; simpl.
  - destruct s; simpl; split; intros _; eauto.
  - destruct s as [|d s]; simpl.
    + split; [discriminate | intros [rest Hr]; discriminate].
    + destruct (ascii_dec c d) as [->|Hne].
      * rewrite IH. split; intros [rest Hr]; exists rest.
        -- now rewrite Hr.
        -- now inversion Hr.
      * split; [discriminate | intros [rest Hr]; congruence].
Qed.

Lemma Contains_unfold (s substr : string) :
  Strings.Contains s substr =
  if String.prefix substr s then true
  else match s with
       | EmptyString => false
       | String _ rest => Strings.Contains rest substr
       end.
Proof. destruct s; reflexivity. Qed.

Lemma Contains_iff (s substr : string) :
  Strings.Contains s substr = true <-> Strings.Occurs substr s.
Proof.
  unfold Strings.Occurs. split.
  - induction s as [|c s IH]; rewrite Contains_unfold;
      destruct (String.prefix substr _) eqn:Hp;
      try discriminate.
    + intros _. apply prefix_iff in Hp. destruct Hp as [rest Hr].
      exists EmptyString, rest. exact Hr.
    + intros _. apply prefix_iff in Hp. destruct Hp as [rest Hr].
      exists EmptyString, rest. exact Hr.
    + intros Hc. destruct (IH Hc) as (before & after & Hs).
      exists (String c before), after. simpl. now rewrite Hs.
  - intros (before & after & Hs). subst s.
    induction before as [|c before IH]; rewrite Contains_unfold.
    + assert (Hp : String.prefix substr (substr ++ after) = true)
        by (apply prefix_iff; eauto).
      simpl String.append. now rewrite Hp.
    + simpl String.append.
      destruct (String.prefix substr (String c (before ++ substr ++ after)));
        [reflexivity | exact IH].
Qed.

Lemma Is_unfold (e target : error) :
  Is e target =
  if error_eq_dec e target then true
  else match e with
       | New _ _ => false
       | Wrap cause _ => Is cause target
       | Chain _ cause => Is cause target
       | Custom _ _ accepts => answers accepts target
       | CustomChain _ accepts cause =>
           if answers accepts target then true else Is cause target
       | Join _ accepts causes =>
           if answers accepts target then true
           else existsb (fun cause => Is cause target) causes
       end.
Proof. destruct e; reflexivity. Qed.

(** Induction on errors, through the causes of an error that has
    several. *)
Lemma error_causes_ind (P : error -> Prop) :
  (forall id msg, P (New id msg)) ->
  (forall cause, P cause -> forall label, P (Wrap cause label)) ->
  (forall msg cause, P cause -> P (Chain msg cause)) ->
  (forall id msg accepts, P (Custom id msg accepts)) ->
  (forall msg accepts cause, P cause -> P (CustomChain msg accepts cause)) ->
  (forall msg accepts causes,
      (forall cause, In cause causes -> P cause) ->
      P (Join msg accepts causes)) ->
  forall e, P e.
Proof.
  intros HNew HWrap HChain HCustom HCustomChain HJoin.
  fix IH 1. intros [id msg | cause label | msg cause | id msg accepts
                    | msg accepts cause | msg accepts causes].
  - apply HNew.
  - apply HWrap, IH.
  - apply HChain, IH.
  - apply HCustom.
  - apply HCustomChain, IH.
  - apply HJoin. induction causes as [|c causes IHc].
    + intros cause [].
    + intros cause [<- | Hin]; [apply IH | now apply IHc].
Qed.

Lemma Matches_head (e target : error) :
  link_is target e -> Matches e target.
Proof. intros Hl. exists e. split; [destruct e; now left | exact Hl]. Qed.

Lemma Matches_tail (e cause target : error) :
  chain e = e :: chain cause -> Matches cause target -> Matches e target.
Proof.
  intros Hc (link & Hin & Hl). exists link. split; [|exact Hl].
  rewrite Hc. now right.
Qed.

Lemma Matches_among (msg : string) (accepts : list nat) (causes : list error)
      (cause target : error) :
  In cause causes -> Matches cause target ->
  Matches (Join msg accepts causes) target.
Proof.
  intros Hc (link & Hin & Hl). exists link. split; [|exact Hl].
  cbn [chain]. right. apply in_flat_map. now exists cause.
Qed.

Lemma Matches_inv (e target : error) :
  Matches e target ->
  link_is target e
  \/ match e with
     | Wrap cause _ | Chain _ cause | CustomChain _ _ cause =>
         Matches cause target
     | Join _ _ causes =>
         exists cause, In cause causes /\ Matches cause target
     | New _ _ | Custom _ _ _ => False
     end.
Proof.
  intros (link & Hin & Hl).
  destruct e as [id msg | cause label | msg cause | id msg accepts
                 | msg accepts cause | msg accepts causes];
    cbn [chain] in Hin;
    destruct Hin as [<- | Hin]; try (now left); try contradiction;
    right; try (now exists link).
  apply in_flat_map in Hin. destruct Hin as (cause & Hc & Hin).
  exists cause. split; [exact Hc | now exists link].
Qed.

(** [errors.Is] decides "is the target". *)
Lemma Is_iff (e target : error) :
  Is e target = true <-> Matches e target.
Proof.
  induction e as [id msg | cause IH label | msg cause IH | id msg accepts
                  | msg accepts cause IH | msg accepts causes IH]
    using error_causes_ind;
    rewrite Is_unfold;
    destruct (error_eq_dec _ target) as [Heq|Hne];
    try (split; [intros _; apply Matches_head; now left | reflexivity]).
  - split; [discriminate|].
    intros Hm. destruct (Matches_inv _ _ Hm) as [[Hl|Hl] | []];
      [contradiction | discriminate Hl].
  - rewrite IH. split; [now apply Matches_tail|].
    intros Hm. destruct (Matches_inv _ _ Hm) as [[Hl|Hl] | Hm'];
      [contradiction | discriminate Hl | exact Hm'].
  - rewrite IH. split; [now apply Matches_tail|].
    intros Hm. destruct (Matches_inv _ _ Hm) as [[Hl|Hl] | Hm'];
      [contradiction | discriminate Hl | exact Hm'].
  - split; [intros Ha; apply Matches_head; now right|].
    intros Hm. destruct (Matches_inv _ _ Hm) as [[Hl|Hl] | []];
      [contradiction | exact Hl].
  - destruct (answers accepts target) eqn:Ha.
    + split; [intros _; apply Matches_head; now right | reflexivity].
    + rewrite IH. split; [now apply Matches_tail|].
      intros Hm. destruct (Matches_inv _ _ Hm) as [[Hl|Hl] | Hm'];
        [contradiction | cbn in Hl; congruence | exact Hm'].
  - destruct (answers accepts target) eqn:Ha.
    + split; [intros _; apply Matches_head; now right | reflexivity].
    + rewrite existsb_exists. split.
      * intros (cause & Hc & His). apply (Matches_among _ _ _ cause); [exact Hc|].
        now apply IH.
      * intros Hm. destruct (Matches_inv _ _ Hm) as [[Hl|Hl] | (cause & Hc & Hm')];
          [contradiction | cbn in Hl; congruence |].
        exists cause. split; [exact Hc | now apply IH].
Qed.

(** For an error none of whose links has an [Is] method, "is the
    target" is plain membership of the target in the cause chain. *)
Lemma plain_links (e link target : error) :
  plain e = true -> In link (chain e) -> own_Is link target = false.
Proof.
  induction e as [id msg | cause IH label | msg cause IH | id msg accepts
                  | msg accepts cause IH | msg accepts causes IH]
    using error_causes_ind; cbn [plain chain];
    intros Hp Hin; try discriminate Hp;
    destruct Hin as [<- | Hin]; try reflexivity; try contradiction;
    now apply IH.
Qed.

Lemma Matches_plain (e target : error) :
  plain e = true -> (Matches e target <-> In target (chain e)).
Proof.
  intros Hp. split.
  - intros (link & Hin & [-> | Hown]); [exact Hin|].
    rewrite (plain_links e link target Hp Hin) in Hown. discriminate Hown.
  - intros Hin. exists target. split; [exact Hin | now left].
Qed.

(** The test of governor.go:86-88 decides the classification as the
    specification words it. *)
Lemma transport_failure_iff (err : error) :
  transport_failure err = true <-> TransientTransportFailure err.
Proof.
  unfold transport_failure, TransientTransportFailure.
  rewrite !orb_true_iff, !Contains_iff, Is_iff.
  tauto.
Qed.

Lemma transport_failure_false_iff (err : error) :
  transport_failure err = false <-> ~ TransientTransportFailure err.
Proof.
  rewrite <- transport_failure_iff.
  destruct (transport_failure err); split; intros; congruence.
Qed.

Example transport_failure_EOF : transport_failure io_EOF = true.
Proof. reflexivity. Qed.

Example transport_failure_wrapped_EOF :
  transport_failure (Wrap (Wrap io_EOF "read frame") "receive") = true.
Proof. reflexivity. Qed.

Example transport_failure_closed :
  transport_failure (New 40 "read |0: file already closed") = true.
Proof. reflexivity. Qed.

Example transport_failure_broken_pipe :
  transport_failure (Chain "write |1: broken pipe" (New 32 "EPIPE")) = true.
Proof. reflexivity. Qed.

Example transport_failure_deadline :
  transport_failure DeadlineExceeded = false.
Proof. reflexivity. Qed.

Example transport_failure_same_text_other_error :
  transport_failure (New 50 "EOF") = false.
Proof. reflexivity. Qed.

Example transport_failure_joined_EOF :
  transport_failure
    (Join "close: bad state; read: EOF" []
          [New 41 "close: bad state"; Wrap io_EOF "read"]) = true
  /\ transport_failure
       (Join "close: bad state; read: timeout" []
             [New 41 "close: bad state"; New 42 "read: timeout"]) = false.
Proof. split; reflexivity. Qed.

(** ** One step of each operation *)

Section Steps.

Context {W H : Type} {P : Proc.Process W H} {R : Runtime.Runtime W}.

Implicit Types (m : Machine W H) (ctx : context) (data : bytes).

(** [Lock] either takes the mutex or fails with the context's error
    and leaves no trace. *)
Lemma Lock_cases ctx m :
  let w := Runtime.lock_wait ctx (world (env m)) in
  Lock ctx m = (Returned (unlock, None), acquired ctx w m)
  \/ exists cerr,
      Err ctx w = Some cerr
      /\ Lock ctx m = (Returned (nil_func, Some cerr), observe [] w m).
Proof.
  unfold Lock, acquired, observe, with_world, emit; simpl.
  destruct (Err ctx _) as [cerr|] eqn:He; [|now left].
  destruct (Runtime.lock_won ctx _); [now left|].
  right. exists cerr. split; [reflexivity|]. now rewrite app_nil_r.
Qed.

(** The background context is never done, so [Lock] always takes the
    mutex under it. *)
Lemma Lock_Background m :
  Lock Background m
  = (Returned (unlock, None),
     acquired Background (Runtime.lock_wait Background (world (env m))) m).
Proof. reflexivity. Qed.

Lemma call_unlock m : call unlock m = (Returned tt, released m).
Proof. reflexivity. Qed.

(** One attempt: a Send, and a Receive unless the Send failed. *)
Lemma exchange_cases ctx data m :
  let p := process (gov m) in
  match Proc.Send p ctx data (world (env m)) with
  | (Some err, w1) =>
      exchange ctx data m
      = (Returned (nil_bytes, Some err), observe [EvSend p ctx data] w1 m)
  | (None, w1) =>
      let (r, w2) := Proc.Receive p ctx w1 in
      exchange ctx data m
      = (Returned r, observe [EvSend p ctx data; EvReceive p ctx] w2 m)
  end.
Proof.
  unfold exchange, bind, get_process, lift, call_Send, call_Receive,
    with_world, emit; simpl.
  destruct (Proc.Send _ ctx data _) as [[err|] w1]; simpl; [reflexivity|].
  destruct (Proc.Receive _ ctx w1) as [r w2]; simpl.
  unfold observe; simpl. now rewrite <- app_assoc.
Qed.

(** An attempt always returns, leaves the governor as it was, logs
    nothing and observes one Send and at most one Receive on the
    current handle. *)
Lemma exchange_returns ctx data m :
  exists r w evs,
    exchange ctx data m = (Returned r, observe evs w m)
    /\ (evs = [EvSend (process (gov m)) ctx data]
        \/ evs = [EvSend (process (gov m)) ctx data;
                  EvReceive (process (gov m)) ctx]).
Proof.
  pose proof (exchange_cases ctx data m) as Hc; simpl in Hc.
  destruct (Proc.Send _ ctx data _) as [[err|] w1].
  - eauto 6.
  - destruct (Proc.Receive _ ctx w1) as [r w2]. eauto 6.
Qed.

Lemma exchange_inv ctx data m o m' :
  exchange ctx data m = (o, m') ->
  exists r w evs,
    o = Returned r /\ m' = observe evs w m
    /\ (evs = [EvSend (process (gov m)) ctx data]
        \/ evs = [EvSend (process (gov m)) ctx data;
                  EvReceive (process (gov m)) ctx]).
Proof.
  intros He. destruct (exchange_returns ctx data m) as (r & w & evs & Hr & Hevs).
  rewrite Hr in He. inversion He; subst. eauto 6.
Qed.

(** The error branch of the loop body. *)
Lemma on_error_cases (retry : M W H (bytes * option error)) (err : error) m :
  let p := process (gov m) in
  let m0 := logged WARN (Proc.String p ++ " exchange error: " ++ Error err) m in
  if transport_failure err then
    match Proc.Wait p (world (env m)) with
    | (Some werr, w1) =>
        on_error retry err m
        = (Returned (nil_bytes, Some werr), observe [EvWait p] w1 m0)
    | (None, w1) =>
        match Proc.Spawn p w1 with
        | (Proc.Failed serr, w2) =>
            on_error retry err m
            = (Returned (nil_bytes, Some (Wrap serr "respawn")),
               observe [EvWait p; EvSpawn p] w2 m0)
        | (Proc.Started q, w2) =>
            on_error retry err m
            = retry (with_process q
                       (logged DEBUG
                          (Proc.String p ++ " respawned as " ++ Proc.String q)
                          (observe [EvWait p; EvSpawn p] w2 m0)))
        end
    end
  else on_error retry err m = (Returned (nil_bytes, Some err), m0).
Proof.
  unfold on_error, bind, get_process, lift, logf, call_Wait, call_Spawn,
    set_process, with_world, emit; simpl.
  destruct (transport_failure err); [|reflexivity].
  destruct (Proc.Wait _ _) as [[werr|] w1]; simpl; [reflexivity|].
  destruct (Proc.Spawn _ w1) as [[q|serr] w2]; simpl.
  - unfold with_process, logged, observe; simpl. now rewrite <- app_assoc.
  - unfold logged, observe; simpl. now rewrite <- app_assoc.
Qed.

(** One iteration of the loop. *)
Lemma Exchange_loop_done (fuel : nat) ctx data m (cerr : error) :
  Err ctx (world (env m)) = Some cerr ->
  Exchange_loop (S fuel) ctx data m = (Returned (nil_bytes, Some cerr), m).
Proof.
  intros He. simpl. unfold bind, ctx_done. now rewrite He.
Qed.

Lemma Exchange_loop_attempt (fuel : nat) ctx data m r m1 :
  Err ctx (world (env m)) = None ->
  exchange ctx data m = (Returned r, m1) ->
  Exchange_loop (S fuel) ctx data m
  = match r with
    | (data', None) => (Returned (data', None), m1)
    | (_, Some err) => on_error (Exchange_loop fuel ctx data) err m1
    end.
Proof.
  intros He Hx. simpl. unfold bind at 1, ctx_done. rewrite He.
  unfold bind at 1. rewrite Hx. destruct r as [data' [err|]]; reflexivity.
Qed.

End Steps.

(** ** What the retry loop can observe *)

Section LoopInvariant.

Context {W H : Type} {P : Proc.Process W H} {R : Runtime.Runtime W}.

Implicit Types (m : Machine W H) (ctx : context) (data : bytes).

Lemma loop_event_not_mutex ctx data (ev : Event H) :
  loop_event ctx data ev -> is_mutex ev = false.
Proof. destruct ev; simpl; intros Hev; auto; contradiction. Qed.

Lemma loop_events_not_mutex ctx data (evs : list (Event H)) :
  Forall (loop_event ctx data) evs -> Forall (fun ev => is_mutex ev = false) evs.
Proof.
  intros Hall. eapply Forall_impl; [|exact Hall].
  intros ev. apply loop_event_not_mutex.
Qed.

Lemma count_app (f : Event H -> bool) (evs1 evs2 : list (Event H)) :
  count f (evs1 ++ evs2) = count f evs1 + count f evs2.
Proof. unfold count. now rewrite filter_app, length_app. Qed.

Lemma count_none (f : Event H -> bool) (evs : list (Event H)) :
  Forall (fun ev => f ev = false) evs -> count f evs = 0.
Proof.
  unfold count. induction 1 as [|ev evs Hev _ IH]; simpl; [reflexivity|].
  now rewrite Hev.
Qed.

(** Whatever number of iterations the loop makes and however it ends,
    it keeps the mutex as it is and observes only the events of
    [loop_event]. *)
Lemma Exchange_loop_events (fuel : nat) ctx data :
  forall m o m',
    Exchange_loop fuel ctx data m = (o, m') ->
    exists evs,
      trace (env m') = trace (env m) ++ evs
      /\ Forall (loop_event ctx data) evs
      /\ mu (gov m') = mu (gov m).
Proof.
  induction fuel as [|fuel IH]; intros m o m' Hrun.
  - inversion Hrun; subst. exists []. now rewrite app_nil_r.
  - destruct (Err ctx (world (env m))) as [cerr|] eqn:He.
    + rewrite (Exchange_loop_done fuel _ data _ _ He) in Hrun. inversion Hrun; subst.
      exists []. now rewrite app_nil_r.
    + destruct (exchange_returns ctx data m) as (r & w & evs & Hx & Hevs).
      rewrite (Exchange_loop_attempt fuel _ _ _ _ _ He Hx) in Hrun.
      assert (Hall : Forall (loop_event ctx data) evs)
        by (destruct Hevs; subst evs; repeat constructor).
      destruct r as [data' [err|]].
      * pose proof (on_error_cases (Exchange_loop fuel ctx data) err
                      (observe evs w m)) as Hc.
        cbv zeta in Hc.
        destruct (transport_failure err).
        -- destruct (Proc.Wait _ _) as [[werr|] w1].
           ++ rewrite Hc in Hrun. inversion Hrun; subst.
              exists (evs ++ [EvWait (process (gov m))]). simpl.
              rewrite <- app_assoc. repeat split; trivial.
              apply Forall_app; split; [exact Hall | repeat constructor].
           ++ destruct (Proc.Spawn _ w1) as [[q|serr] w2].
              ** rewrite Hc in Hrun. apply IH in Hrun.
                 destruct Hrun as (evs' & Htr & Hall' & Hmu).
                 simpl in Htr, Hmu.
                 exists (evs ++ [EvWait (process (gov m));
                                 EvSpawn (process (gov m))] ++ evs').
                 rewrite Htr, <- !app_assoc. repeat split; trivial.
                 apply Forall_app; split; [exact Hall|].
                 apply Forall_app; split; [repeat constructor | exact Hall'].
              ** rewrite Hc in Hrun. inversion Hrun; subst.
                 exists (evs ++ [EvWait (process (gov m));
                                 EvSpawn (process (gov m))]). simpl.
                 rewrite <- app_assoc. repeat split; trivial.
                 apply Forall_app; split; [exact Hall | repeat constructor].
        -- rewrite Hc in Hrun. inversion Hrun; subst.
           exists evs. simpl. repeat split; trivial.
      * inversion Hrun; subst. exists evs. simpl. repeat split; trivial.
Qed.

(** Fuel only bounds how far the model follows the loop: once a run
    exits, more fuel gives the same result and the same machine. *)
Lemma Exchange_loop_more_fuel (fuel : nat) ctx data :
  forall m o m' (fuel' : nat),
    Exchange_loop fuel ctx data m = (o, m') ->
    o <> OutOfFuel ->
    fuel <= fuel' ->
    Exchange_loop fuel' ctx data m = (o, m').
Proof.
  induction fuel as [|fuel IH]; intros m o m' fuel' Hrun Hexit Hle.
  - inversion Hrun; subst. contradiction.
  - destruct fuel' as [|fuel']; [lia|]. apply le_S_n in Hle.
    destruct (Err ctx (world (env m))) as [cerr|] eqn:He.
    + rewrite (Exchange_loop_done fuel _ data _ _ He) in Hrun.
      now rewrite (Exchange_loop_done fuel' _ data _ _ He).
    + destruct (exchange_returns ctx data m) as (r & w & evs & Hx & _).
      rewrite (Exchange_loop_attempt fuel _ _ _ _ _ He Hx) in Hrun.
      rewrite (Exchange_loop_attempt fuel' _ _ _ _ _ He Hx).
      destruct r as [data' [err|]]; [|exact Hrun].
      pose proof (on_error_cases (Exchange_loop fuel ctx data) err
                    (observe evs w m)) as Hc.
      pose proof (on_error_cases (Exchange_loop fuel' ctx data) err
                    (observe evs w m)) as Hc'.
      cbv zeta in Hc, Hc'.
      destruct (transport_failure err); [|congruence].
      destruct (Proc.Wait _ _) as [[werr|] w1]; [congruence|].
      destruct (Proc.Spawn _ w1) as [[q|serr] w2]; [|congruence].
      rewrite Hc in Hrun. rewrite Hc'. now apply IH.
Qed.

End LoopInvariant.

(** ** The respawn loop *)

Section Respawn.

Context {W H : Type} {P : Proc.Process W H} {R : Runtime.Runtime W}.

Implicit Types (m : Machine W H) (ctx : context) (data : bytes).

(** A successful [Lock] hands back the release callback and the
    machine with the mutex held. *)
Lemma Lock_success_inv ctx m (cancel : release) m1 :
  Lock ctx m = (Returned (cancel, None), m1) ->
  cancel = unlock
  /\ m1 = acquired ctx (Runtime.lock_wait ctx (world (env m))) m.
Proof.
  intros Hl. destruct (Lock_cases ctx m) as [Hok | (cerr & _ & Hko)];
    cbv zeta in *.
  - rewrite Hok in Hl. inversion Hl; subst. auto.
  - rewrite Hko in Hl. discriminate.
Qed.

Lemma Lock_failure_inv ctx m (cancel : release) (lerr : error) m1 :
  Lock ctx m = (Returned (cancel, Some lerr), m1) ->
  cancel = nil_func
  /\ Err ctx (world (env m1)) = Some lerr
  /\ gov m1 = gov m
  /\ trace (env m1) = trace (env m)
  /\ logs (env m1) = logs (env m).
Proof.
  intros Hl. destruct (Lock_cases ctx m) as [Hok | (cerr & He & Hko)];
    cbv zeta in *.
  - rewrite Hok in Hl. discriminate.
  - rewrite Hko in Hl. inversion Hl; subst. simpl.
    rewrite app_nil_r. auto.
Qed.

(** With the mutex taken, [Exchange] is its loop followed by the
    deferred release. *)
Lemma Exchange_runs_loop (fuel : nat) ctx data m m1 :
  Lock ctx m = (Returned (unlock, None), m1) ->
  Exchange fuel ctx data m
  = deferred (call unlock) (Exchange_loop fuel ctx data) m1.
Proof. intros Hl. unfold Exchange, bind. now rewrite Hl. Qed.

Lemma Exchange_lock_failed (fuel : nat) ctx data m cancel lerr m1 :
  Lock ctx m = (Returned (cancel, Some lerr), m1) ->
  Exchange fuel ctx data m = (Returned (nil_bytes, Some lerr), m1).
Proof. intros Hl. unfold Exchange, bind. now rewrite Hl. Qed.

Lemma deferred_unlock_returned {A} (body : M W H A) m (a : A) m1 :
  body m = (Returned a, m1) ->
  deferred (call unlock) body m = (Returned a, released m1).
Proof. intros Hb. unfold deferred. now rewrite Hb. Qed.

(** The iteration in which the attempt fails with a transport
    failure: reap, respawn, retry. *)
Lemma Exchange_loop_respawn (fuel : nat) ctx data m junk err m2 :
  Err ctx (world (env m)) = None ->
  exchange ctx data m = (Returned (junk, Some err), m2) ->
  transport_failure err = true ->
  let p := process (gov m2) in
  let m0 := logged WARN (Proc.String p ++ " exchange error: " ++ Error err) m2 in
  match Proc.Wait p (world (env m2)) with
  | (Some werr, w1) =>
      Exchange_loop (S fuel) ctx data m
      = (Returned (nil_bytes, Some werr), observe [EvWait p] w1 m0)
  | (None, w1) =>
      match Proc.Spawn p w1 with
      | (Proc.Failed serr, w2) =>
          Exchange_loop (S fuel) ctx data m
          = (Returned (nil_bytes, Some (Wrap serr "respawn")),
             observe [EvWait p; EvSpawn p] w2 m0)
      | (Proc.Started q, w2) =>
          Exchange_loop (S fuel) ctx data m
          = Exchange_loop fuel ctx data
              (with_process q
                 (logged DEBUG
                    (Proc.String p ++ " respawned as " ++ Proc.String q)
                    (observe [EvWait p; EvSpawn p] w2 m0)))
      end
  end.
Proof.
  intros He Hx Htf.
  rewrite (Exchange_loop_attempt fuel _ _ _ _ _ He Hx).
  pose proof (on_error_cases (Exchange_loop fuel ctx data) err m2) as Hc.
  cbv zeta in Hc. rewrite Htf in Hc. exact Hc.
Qed.

(** The iteration in which the attempt fails with any other error. *)
Lemma Exchange_loop_fatal (fuel : nat) ctx data m junk err m2 :
  Err ctx (world (env m)) = None ->
  exchange ctx data m = (Returned (junk, Some err), m2) ->
  transport_failure err = false ->
  Exchange_loop (S fuel) ctx data m
  = (Returned (nil_bytes, Some err),
     logged WARN (Proc.String (process (gov m2)) ++ " exchange error: "
                  ++ Error err) m2).
Proof.
  intros He Hx Htf.
  rewrite (Exchange_loop_attempt fuel _ _ _ _ _ He Hx).
  pose proof (on_error_cases (Exchange_loop fuel ctx data) err m2) as Hc.
  cbv zeta in Hc. rewrite Htf in Hc. exact Hc.
Qed.

(** The iteration in which the attempt succeeds. *)
Lemma Exchange_loop_success (fuel : nat) ctx data m (p : H) (w1 w2 : W)
      (resp : bytes) :
  Err ctx (world (env m)) = None ->
  process (gov m) = p ->
  Proc.Send p ctx data (world (env m)) = (None, w1) ->
  Proc.Receive p ctx w1 = ((resp, None), w2) ->
  Exchange_loop (S fuel) ctx data m
  = (Returned (resp, None), observe [EvSend p ctx data; EvReceive p ctx] w2 m).
Proof.
  intros He Hp Hs Hr. subst p.
  pose proof (exchange_cases ctx data m) as Hc. cbv zeta in Hc.
  rewrite Hs, Hr in Hc.
  now rewrite (Exchange_loop_attempt fuel _ _ _ _ _ He Hc).
Qed.

(** C1.  Transient-failure recovery.  The mutex is taken under [ctx],
    which is not done at either check; the first attempt on the
    current process fails with a transient transport failure; reaping
    the old process and spawning [p2] succeed; [p2] answers [Q] with
    [R2].  Then [Exchange] returns [(R2, nil)], the governor holds
    [p2], and the call observed exactly one Wait and one Spawn, in
    that order, between the failed attempt and the retry. *)
Theorem Exchange_recovers_from_transport_failure
        (fuel : nat) ctx (Q R2 junk : bytes) (err : error)
        m m1 m2 (p2 : H) (w3 w4 w5 w6 : W) :
  Lock ctx m = (Returned (unlock, None), m1) ->
  Err ctx (world (env m1)) = None ->
  exchange ctx Q m1 = (Returned (junk, Some err), m2) ->
  TransientTransportFailure err ->
  Proc.Wait (process (gov m)) (world (env m2)) = (None, w3) ->
  Proc.Spawn (process (gov m)) w3 = (Proc.Started p2, w4) ->
  Err ctx w4 = None ->
  Proc.Send p2 ctx Q w4 = (None, w5) ->
  Proc.Receive p2 ctx w5 = ((R2, None), w6) ->
  exists m',
    Exchange (S (S fuel)) ctx Q m = (Returned (R2, None), m')
    /\ process (gov m') = p2
    /\ world (env m') = w6
    /\ trace (env m')
       = trace (env m2)
         ++ [EvWait (process (gov m)); EvSpawn (process (gov m));
             EvSend p2 ctx Q; EvReceive p2 ctx; EvUnlock]
    /\ exists evs,
        trace (env m') = trace (env m) ++ evs
        /\ count is_wait evs = 1
        /\ count is_spawn evs = 1.
Proof.
  intros Hl He1 Hx Htf Hw Hs He2 Hsend Hrecv.
  apply transport_failure_iff in Htf.
  destruct (Lock_success_inv _ _ _ _ Hl) as [_ Hm1].
  destruct (exchange_inv _ _ _ _ _ Hx) as (r & w & evs & Hr & Hm2 & Hevs).
  assert (Hp2 : process (gov m2) = process (gov m)) by (subst m2 m1; reflexivity).
  pose proof (Exchange_loop_respawn (S fuel) _ _ _ _ _ _ He1 Hx Htf) as Hstep.
  cbv zeta in Hstep. rewrite Hp2, Hw, Hs in Hstep.
  rewrite (Exchange_loop_success fuel ctx Q _ p2 w5 w6 R2) in Hstep;
    [| exact He2 | reflexivity | exact Hsend | exact Hrecv].
  rewrite (Exchange_runs_loop _ _ _ _ _ Hl).
  rewrite (deferred_unlock_returned _ _ _ _ Hstep).
  eexists. split; [reflexivity|]. simpl.
  repeat split.
  - now rewrite <- !app_assoc.
  - subst m2 m1. simpl. eexists. split.
    + rewrite <- !app_assoc. reflexivity.
    + destruct Hevs as [-> | ->]; split; reflexivity.
Qed.

(** On the respawn path the first call after the failed attempt is
    [Wait] on the handle the attempt used. *)
Lemma respawn_path_starts_with_Wait (fuel : nat) ctx data m junk err m2 o m' :
  Err ctx (world (env m)) = None ->
  exchange ctx data m = (Returned (junk, Some err), m2) ->
  transport_failure err = true ->
  Exchange_loop (S fuel) ctx data m = (o, m') ->
  exists evs,
    trace (env m') = trace (env m2) ++ EvWait (process (gov m2)) :: evs.
Proof.
  intros He Hx Htf Hrun.
  pose proof (Exchange_loop_respawn fuel _ _ _ _ _ _ He Hx Htf) as Hstep.
  cbv zeta in Hstep.
  destruct (Proc.Wait _ _) as [[werr|] w1].
  - rewrite Hstep in Hrun. inversion Hrun; subst. exists []. reflexivity.
  - destruct (Proc.Spawn _ w1) as [[q|serr] w2].
    + rewrite Hstep in Hrun.
      destruct (Exchange_loop_events _ _ _ _ _ _ Hrun) as (evs & Htr & _).
      exists (EvSpawn (process (gov m2)) :: evs).
      rewrite Htr. simpl. now rewrite <- app_assoc.
    + rewrite Hstep in Hrun. inversion Hrun; subst.
      exists [EvSpawn (process (gov m2))]. reflexivity.
Qed.

Lemma app_cons_not_self {A} (l l' : list A) (a : A) : l <> l ++ a :: l'.
Proof.
  intros Heq. apply (f_equal (@List.length A)) in Heq.
  rewrite length_app in Heq. simpl in Heq. lia.
Qed.

(** C2.  Classification.  When an attempt of the loop fails with
    [err], the loop takes the respawn path (its next call is [Wait] on
    the current handle) if and only if [err] is a transient transport
    failure in the words of the specification: EOF in its cause chain
    (a link of the chain is [io.EOF], or answers for [io.EOF] through
    its own [Is] method, which is what [errors.Is] tests), or a message
    containing "file already closed" or "broken pipe".  Every other
    error is returned at once: nothing is called after the
    attempt and the governor and the world stay as the attempt left
    them. *)
Theorem Exchange_classifies_transport_failures
        (fuel : nat) ctx data m junk err m2 o m' :
  Err ctx (world (env m)) = None ->
  exchange ctx data m = (Returned (junk, Some err), m2) ->
  Exchange_loop (S fuel) ctx data m = (o, m') ->
  (TransientTransportFailure err
   <-> exists evs,
        trace (env m') = trace (env m2) ++ EvWait (process (gov m2)) :: evs)
  /\ (~ TransientTransportFailure err ->
      o = Returned (nil_bytes, Some err)
      /\ trace (env m') = trace (env m2)
      /\ gov m' = gov m2
      /\ world (env m') = world (env m2)).
Proof.
  intros He Hx Hrun.
  destruct (transport_failure err) eqn:Htf.
  - split.
    + split; [intros _ | intros _; now apply transport_failure_iff].
      eapply respawn_path_starts_with_Wait; eauto.
    + intros Hnot. apply transport_failure_iff in Htf. contradiction.
  - rewrite (Exchange_loop_fatal fuel _ _ _ _ _ _ He Hx Htf) in Hrun.
    inversion Hrun; subst. simpl. split.
    + split.
      * intros Ht. apply transport_failure_iff in Ht. congruence.
      * intros [evs Hevs]. now apply app_cons_not_self in Hevs.
    + intros _. repeat split.
Qed.

(** C3.  Reap before respawn.  When an attempt of the loop fails with
    a transient transport failure, [Wait] is called on the old handle
    first.  If it fails, the loop (and with it [Exchange]) returns
    that error and [Spawn] is not called.  If it succeeds, [Spawn] is
    called on the old handle; if that fails, the error comes back
    wrapped with the label "respawn" and the governor keeps the old
    handle; if it succeeds, the governor holds the new handle and the
    loop goes round again with the same context and payload. *)
Theorem Exchange_reaps_before_respawn (fuel : nat) ctx data m junk err m2 :
  Err ctx (world (env m)) = None ->
  exchange ctx data m = (Returned (junk, Some err), m2) ->
  TransientTransportFailure err ->
  let old := process (gov m) in
  match Proc.Wait old (world (env m2)) with
  | (Some werr, w1) =>
      exists m',
        Exchange_loop (S fuel) ctx data m
        = (Returned (nil_bytes, Some werr), m')
        /\ trace (env m') = trace (env m2) ++ [EvWait old]
        /\ process (gov m') = old
        /\ world (env m') = w1
        /\ forall m0,
            Lock ctx m0 = (Returned (unlock, None), m) ->
            Exchange (S fuel) ctx data m0
            = (Returned (nil_bytes, Some werr), released m')
  | (None, w1) =>
      match Proc.Spawn old w1 with
      | (Proc.Failed serr, w2) =>
          exists m',
            Exchange_loop (S fuel) ctx data m
            = (Returned (nil_bytes, Some (Wrap serr "respawn")), m')
            /\ trace (env m') = trace (env m2) ++ [EvWait old; EvSpawn old]
            /\ process (gov m') = old
            /\ world (env m') = w2
            /\ forall m0,
                Lock ctx m0 = (Returned (unlock, None), m) ->
                Exchange (S fuel) ctx data m0
                = (Returned (nil_bytes, Some (Wrap serr "respawn")),
                   released m')
      | (Proc.Started new, w2) =>
          exists m3,
            Exchange_loop (S fuel) ctx data m = Exchange_loop fuel ctx data m3
            /\ trace (env m3) = trace (env m2) ++ [EvWait old; EvSpawn old]
            /\ process (gov m3) = new
            /\ mu (gov m3) = mu (gov m)
            /\ world (env m3) = w2
            /\ forall m0,
                Lock ctx m0 = (Returned (unlock, None), m) ->
                Exchange (S fuel) ctx data m0
                = deferred (call unlock) (Exchange_loop fuel ctx data) m3
      end
  end.
Proof.
  intros He Hx Htf old.
  apply transport_failure_iff in Htf.
  destruct (exchange_inv _ _ _ _ _ Hx) as (r & w & evs & _ & Hm2 & _).
  assert (Hp : process (gov m2) = old) by (subst m2; reflexivity).
  assert (Hmu : mu (gov m2) = mu (gov m)) by (subst m2; reflexivity).
  pose proof (Exchange_loop_respawn fuel _ _ _ _ _ _ He Hx Htf) as Hstep.
  cbv zeta in Hstep. rewrite Hp in Hstep.
  destruct (Proc.Wait old _) as [[werr|] w1].
  - eexists. split; [exact Hstep|]. simpl. repeat split; trivial.
    intros m0 Hl. rewrite (Exchange_runs_loop _ _ _ _ _ Hl).
    now apply deferred_unlock_returned.
  - destruct (Proc.Spawn old w1) as [[new|serr] w2].
    + eexists. split; [exact Hstep|]. simpl. repeat split; trivial.
      intros m0 Hl. rewrite (Exchange_runs_loop _ _ _ _ _ Hl).
      unfold deferred. now rewrite Hstep.
    + eexists. split; [exact Hstep|]. simpl. repeat split; trivial.
      intros m0 Hl. rewrite (Exchange_runs_loop _ _ _ _ _ Hl).
      now apply deferred_unlock_returned.
Qed.

End Respawn.

(** ** Errors that do not respawn, and the single-shot exchange *)

Section NoRespawn.

Context {W H : Type} {P : Proc.Process W H} {R : Runtime.Runtime W}.

Implicit Types (m : Machine W H) (ctx : context) (data : bytes).

(** C4, as the code has it.  When an attempt of the loop fails with an
    error that is not a transient transport failure, the loop returns
    that very error value, with no label added, and so does
    [Exchange] after releasing the mutex; the cause chain, the message
    and every [errors.Is] test of the returned error are those of the
    attempt's error.  The words "exchange error" go to the warning log
    only. *)
Theorem Exchange_returns_other_errors_unwrapped
        (fuel : nat) ctx data m junk err m2 :
  Err ctx (world (env m)) = None ->
  exchange ctx data m = (Returned (junk, Some err), m2) ->
  ~ TransientTransportFailure err ->
  exists returned m',
    Exchange_loop (S fuel) ctx data m = (Returned (nil_bytes, Some returned), m')
    /\ returned = err
    /\ chain returned = chain err
    /\ Error returned = Error err
    /\ (forall target, Is returned target = Is err target)
    /\ logs (env m')
       = logs (env m2)
         ++ [(WARN, (Proc.String (process (gov m2)) ++ " exchange error: "
                     ++ Error err)%string)]
    /\ forall m0,
        Lock ctx m0 = (Returned (unlock, None), m) ->
        Exchange (S fuel) ctx data m0
        = (Returned (nil_bytes, Some returned), released m').
Proof.
  intros He Hx Hnot. apply transport_failure_false_iff in Hnot.
  pose proof (Exchange_loop_fatal fuel _ _ _ _ _ _ He Hx Hnot) as Hstep.
  exists err. eexists. split; [exact Hstep|]. repeat split.
  intros m0 Hl. rewrite (Exchange_runs_loop _ _ _ _ _ Hl).
  now apply deferred_unlock_returned.
Qed.

(** C5.  No respawn on an application error.  When an attempt of the
    loop fails with an error that is not a transient transport
    failure, nothing is called after the attempt: no Wait, no Spawn,
    and the governor keeps its process handle.  When the attempt is
    the first of the call, the whole [Exchange] observed no Wait and
    no Spawn, so the number of Spawns in the trace is what it was
    before the call. *)
Theorem Exchange_application_error_no_respawn
        (fuel : nat) ctx data m junk err m2 :
  Err ctx (world (env m)) = None ->
  exchange ctx data m = (Returned (junk, Some err), m2) ->
  ~ TransientTransportFailure err ->
  exists m',
    Exchange_loop (S fuel) ctx data m = (Returned (nil_bytes, Some err), m')
    /\ process (gov m') = process (gov m)
    /\ trace (env m') = trace (env m2)
    /\ (exists evs,
          trace (env m') = trace (env m) ++ evs
          /\ count is_wait evs = 0
          /\ count is_spawn evs = 0)
    /\ forall m0,
        Lock ctx m0 = (Returned (unlock, None), m) ->
        exists m'',
          Exchange (S fuel) ctx data m0 = (Returned (nil_bytes, Some err), m'')
          /\ process (gov m'') = process (gov m0)
          /\ (exists evs,
                trace (env m'') = trace (env m0) ++ evs
                /\ count is_wait evs = 0
                /\ count is_spawn evs = 0)
          /\ count is_spawn (trace (env m''))
             = count is_spawn (trace (env m0)).
Proof.
  intros He Hx Hnot. apply transport_failure_false_iff in Hnot.
  pose proof (Exchange_loop_fatal fuel _ _ _ _ _ _ He Hx Hnot) as Hstep.
  destruct (exchange_inv _ _ _ _ _ Hx) as (r & w & evs & _ & Hm2 & Hevs).
  assert (Hw : count is_wait evs = 0 /\ count is_spawn evs = 0)
    by (destruct Hevs as [-> | ->]; split; reflexivity).
  eexists. split; [exact Hstep|]. subst m2. simpl. repeat split.
  - exists evs. tauto.
  - intros m0 Hl. destruct (Lock_success_inv _ _ _ _ Hl) as [_ Hm].
    rewrite (Exchange_runs_loop _ _ _ _ _ Hl).
    rewrite (deferred_unlock_returned _ _ _ _ Hstep).
    eexists. split; [reflexivity|]. subst m. simpl.
    assert (Hn : count is_wait ([EvLock ctx] ++ evs ++ [EvUnlock]) = 0
                 /\ count is_spawn ([EvLock ctx] ++ evs ++ [EvUnlock]) = 0).
    { rewrite !count_app. destruct Hw as [-> ->]. split; reflexivity. }
    repeat split.
    + exists ([EvLock ctx] ++ evs ++ [EvUnlock]).
      rewrite <- !app_assoc. tauto.
    + rewrite <- !app_assoc.
      rewrite (count_app _ (trace (env m0))). destruct Hn as [_ ->]. lia.
Qed.

(** C6.  Cancellation.  An iteration of the loop that starts with the
    context done returns the context's error at once, whatever that
    error is: nothing is sent, nothing is reaped or spawned, the
    machine is left untouched.  In particular, when the context is
    done right after the mutex was taken, [Exchange] observes the
    acquisition and the release and nothing else. *)
Theorem Exchange_returns_context_error
        (fuel : nat) ctx data m (cerr : error) :
  Err ctx (world (env m)) = Some cerr ->
  Exchange_loop (S fuel) ctx data m = (Returned (nil_bytes, Some cerr), m)
  /\ forall m0,
      Lock ctx m0 = (Returned (unlock, None), m) ->
      Exchange (S fuel) ctx data m0
      = (Returned (nil_bytes, Some cerr), released m)
      /\ trace (env (released m)) = trace (env m0) ++ [EvLock ctx; EvUnlock]
      /\ process (gov (released m)) = process (gov m0).
Proof.
  intros He.
  pose proof (Exchange_loop_done fuel ctx data m cerr He) as Hstep.
  split; [exact Hstep|].
  intros m0 Hl. destruct (Lock_success_inv _ _ _ _ Hl) as [_ Hm].
  rewrite (Exchange_runs_loop _ _ _ _ _ Hl).
  rewrite (deferred_unlock_returned _ _ _ _ Hstep).
  subst m. simpl. rewrite <- app_assoc. repeat split.
Qed.

(** C7.  The single-shot exchange.  [ExchangeDirect] either fails to
    take the mutex and returns the error of [Lock] with nothing
    observed, or takes it, makes one attempt on the current handle
    (one Send, and one Receive unless the Send failed), releases the
    mutex and returns what the attempt returned.  It never calls Wait,
    Spawn or Kill and leaves the process handle as it was. *)
Theorem ExchangeDirect_single_attempt ctx data m :
  (exists lerr m1,
      Lock ctx m = (Returned (nil_func, Some lerr), m1)
      /\ ExchangeDirect ctx data m = (Returned (nil_bytes, Some lerr), m1)
      /\ gov m1 = gov m
      /\ trace (env m1) = trace (env m))
  \/ (exists m1 r m2 evs,
        Lock ctx m = (Returned (unlock, None), m1)
        /\ exchange ctx data m1 = (Returned r, m2)
        /\ ExchangeDirect ctx data m = (Returned r, released m2)
        /\ process (gov (released m2)) = process (gov m)
        /\ trace (env (released m2)) = trace (env m) ++ evs
        /\ count is_send evs = 1
        /\ count is_receive evs <= 1
        /\ count is_wait evs = 0
        /\ count is_spawn evs = 0
        /\ count is_kill evs = 0
        /\ let p := process (gov m) in
           match Proc.Send p ctx data (world (env m1)) with
           | (Some serr, _) =>
               r = (nil_bytes, Some serr)
               /\ evs = [EvLock ctx; EvSend p ctx data; EvUnlock]
           | (None, w1) =>
               r = fst (Proc.Receive p ctx w1)
               /\ evs = [EvLock ctx; EvSend p ctx data; EvReceive p ctx;
                         EvUnlock]
           end).
Proof.
  destruct (Lock_cases ctx m) as [Hok | (cerr & He & Hko)]; cbv zeta in *.
  - right.
    set (m1 := acquired ctx _ m) in *.
    pose proof (exchange_cases ctx data m1) as Hc. cbv zeta in Hc.
    change (process (gov m1)) with (process (gov m)) in Hc.
    assert (Hd : forall r m2,
               exchange ctx data m1 = (Returned r, m2) ->
               ExchangeDirect ctx data m = (Returned r, released m2)).
    { intros r m2 Hx. unfold ExchangeDirect, bind. rewrite Hok.
      now apply deferred_unlock_returned. }
    destruct (Proc.Send _ ctx data _) as [[serr|] w1] eqn:Hs.
    + exists m1, (nil_bytes, Some serr), (observe [EvSend (process (gov m)) ctx data] w1 m1),
        [EvLock ctx; EvSend (process (gov m)) ctx data; EvUnlock].
      split; [exact Hok|]. split; [exact Hc|]. split; [exact (Hd _ _ Hc)|].
      split; [reflexivity|].
      split; [simpl; now rewrite <- !app_assoc|].
      split; [reflexivity|]. split; [unfold count; simpl; lia|].
      do 3 (split; [reflexivity|]).
      cbv zeta. rewrite Hs. split; reflexivity.
    + destruct (Proc.Receive _ ctx w1) as [r w2] eqn:Hr.
      exists m1, r,
        (observe [EvSend (process (gov m)) ctx data;
                  EvReceive (process (gov m)) ctx] w2 m1),
        [EvLock ctx; EvSend (process (gov m)) ctx data;
         EvReceive (process (gov m)) ctx; EvUnlock].
      split; [exact Hok|]. split; [exact Hc|]. split; [exact (Hd _ _ Hc)|].
      split; [reflexivity|].
      split; [simpl; now rewrite <- !app_assoc|].
      split; [reflexivity|]. split; [unfold count; simpl; lia|].
      do 3 (split; [reflexivity|]).
      cbv zeta. rewrite Hs, Hr. split; reflexivity.
  - left. exists cerr. eexists. split; [exact Hko|].
    split; [|split; [reflexivity | simpl; now rewrite app_nil_r]].
    unfold ExchangeDirect, bind. now rewrite Hko.
Qed.

End NoRespawn.

(** ** The mutex, the payload and the Send error *)

Section Discipline.

Context {W H : Type} {P : Proc.Process W H} {R : Runtime.Runtime W}.

Implicit Types (m : Machine W H) (ctx : context) (data : bytes).

Lemma critical_section_counts ctx (evs : list (Event H)) :
  critical_section ctx evs ->
  count is_lock evs = 1 /\ count is_unlock evs = 1.
Proof.
  intros (inside & -> & Hin).
  change (EvLock ctx :: inside ++ [EvUnlock])
    with ([EvLock ctx] ++ inside ++ [EvUnlock]).
  rewrite !count_app.
  assert (Hl : count is_lock inside = 0).
  { apply count_none. eapply Forall_impl; [|exact Hin].
    intros ev Hev. unfold is_mutex in Hev.
    now apply orb_false_iff in Hev. }
  assert (Hu : count is_unlock inside = 0).
  { apply count_none. eapply Forall_impl; [|exact Hin].
    intros ev Hev. unfold is_mutex in Hev.
    now apply orb_false_iff in Hev. }
  rewrite Hl, Hu. split; reflexivity.
Qed.

Lemma lock_guarded_failed ctx m cancel lerr m1 :
  Lock ctx m = (Returned (cancel, Some lerr), m1) ->
  lock_guarded ctx m m1.
Proof.
  intros Hl. destruct (Lock_failure_inv _ _ _ _ _ Hl) as (_ & _ & _ & Htr & _).
  exists []. rewrite app_nil_r. split; [exact Htr|]. split; [reflexivity|].
  left. eauto.
Qed.

Lemma lock_guarded_section ctx m m1 m' (inside : list (Event H)) :
  Lock ctx m = (Returned (unlock, None), m1) ->
  trace (env m') = trace (env m1) ++ inside ++ [EvUnlock] ->
  Forall (fun ev => is_mutex ev = false) inside ->
  lock_guarded ctx m m'.
Proof.
  intros Hl Htr Hin. destruct (Lock_success_inv _ _ _ _ Hl) as [_ Hm1].
  assert (Hcs : critical_section ctx (EvLock ctx :: inside ++ [EvUnlock]))
    by (exists inside; auto).
  destruct (critical_section_counts _ _ Hcs) as [Hl1 Hu1].
  exists (EvLock ctx :: inside ++ [EvUnlock]).
  split; [|split; [congruence|]].
  - rewrite Htr. subst m1. simpl. now rewrite <- app_assoc.
  - right. exists unlock, m1. auto.
Qed.

Lemma Exchange_lock_guarded (fuel : nat) ctx data m o m' :
  Exchange fuel ctx data m = (o, m') ->
  o <> OutOfFuel ->
  lock_guarded ctx m m'.
Proof.
  intros Hrun Hexit.
  destruct (Lock_cases ctx m) as [Hok | (cerr & He & Hko)]; cbv zeta in *.
  - rewrite (Exchange_runs_loop _ _ _ _ _ Hok) in Hrun.
    unfold deferred in Hrun.
    destruct (Exchange_loop fuel ctx data _) as [o1 m1'] eqn:Hloop.
    destruct (Exchange_loop_events _ _ _ _ _ _ Hloop) as (evs & Htr & Hall & _).
    apply loop_events_not_mutex in Hall.
    destruct o1 as [a|msg|].
    + rewrite call_unlock in Hrun. inversion Hrun; subst.
      eapply lock_guarded_section; [exact Hok| |exact Hall].
      simpl. rewrite Htr. now rewrite <- app_assoc.
    + rewrite call_unlock in Hrun. inversion Hrun; subst.
      eapply lock_guarded_section; [exact Hok| |exact Hall].
      simpl. rewrite Htr. now rewrite <- app_assoc.
    + inversion Hrun; subst. contradiction.
  - rewrite (Exchange_lock_failed _ _ _ _ _ _ _ Hko) in Hrun.
    inversion Hrun; subst. eapply lock_guarded_failed; exact Hko.
Qed.

Lemma ExchangeDirect_lock_guarded ctx data m o m' :
  ExchangeDirect ctx data m = (o, m') ->
  lock_guarded ctx m m'.
Proof.
  intros Hrun.
  destruct (Lock_cases ctx m) as [Hok | (cerr & He & Hko)]; cbv zeta in *.
  - unfold ExchangeDirect, bind in Hrun. rewrite Hok in Hrun.
    destruct (exchange_returns ctx data
                (acquired ctx (Runtime.lock_wait ctx (world (env m))) m))
      as (r & w & evs & Hx & Hevs).
    rewrite (deferred_unlock_returned _ _ _ _ Hx) in Hrun.
    inversion Hrun; subst.
    eapply lock_guarded_section; [exact Hok|simpl; now rewrite <- app_assoc|].
    destruct Hevs as [-> | ->]; repeat constructor.
  - unfold ExchangeDirect, bind in Hrun. rewrite Hko in Hrun.
    inversion Hrun; subst. eapply lock_guarded_failed; exact Hko.
Qed.

Lemma Kill_cases m :
  let w := Runtime.lock_wait Background (world (env m)) in
  let p := process (gov m) in
  Kill m
  = (Returned tt,
     released (observe [EvKill p] (Proc.Kill p w) (acquired Background w m))).
Proof.
  unfold Kill, bind. rewrite Lock_Background.
  apply deferred_unlock_returned.
  unfold bind, get_process, lift, call_Kill, with_world, emit, observe.
  reflexivity.
Qed.

Lemma Wait_cases m :
  let w := Runtime.lock_wait Background (world (env m)) in
  let p := process (gov m) in
  exists werr w1 m1,
    Proc.Wait p w = (werr, w1)
    /\ Wait m = (Returned werr, released m1)
    /\ gov m1 = gov (acquired Background w m)
    /\ trace (env m1) = trace (env (acquired Background w m)) ++ [EvWait p].
Proof.
  cbv zeta. unfold Wait, bind at 1. rewrite Lock_Background.
  destruct (Proc.Wait (process (gov m))
              (Runtime.lock_wait Background (world (env m)))) as [werr w1] eqn:Hw.
  exists werr, w1.
  destruct werr as [err|].
  - eexists. split; [reflexivity|].
    split; [apply deferred_unlock_returned|].
    + unfold bind, get_process, lift, call_Wait, with_world, emit. simpl.
      rewrite Hw. reflexivity.
    + split; reflexivity.
  - eexists. split; [reflexivity|].
    split; [apply deferred_unlock_returned|].
    + unfold bind, get_process, lift, call_Wait, logf, with_world, emit. simpl.
      rewrite Hw. reflexivity.
    + split; reflexivity.
Qed.

(** C8.  The lock guard.  [Exchange] (whenever it exits, by return or
    by panic), [ExchangeDirect], [Kill] and [Wait] release the mutex
    exactly once when they took it, after everything else they do, and
    not at all when [Lock] failed; [Kill] and [Wait] lock under the
    background context and always take it. *)
Theorem mutex_released_once_per_acquisition :
  (forall (fuel : nat) ctx data m o m',
      Exchange fuel ctx data m = (o, m') ->
      o <> OutOfFuel ->
      lock_guarded ctx m m')
  /\ (forall ctx data m o m',
        ExchangeDirect ctx data m = (o, m') ->
        lock_guarded ctx m m')
  /\ (forall m,
        exists m' evs,
          Kill m = (Returned tt, m')
          /\ lock_guarded Background m m'
          /\ trace (env m') = trace (env m) ++ evs
          /\ critical_section Background evs)
  /\ (forall m,
        exists werr m' evs,
          Wait m = (Returned werr, m')
          /\ lock_guarded Background m m'
          /\ trace (env m') = trace (env m) ++ evs
          /\ critical_section Background evs).
Proof.
  split; [exact Exchange_lock_guarded|].
  split; [exact ExchangeDirect_lock_guarded|].
  split.
  - intros m. pose proof (Kill_cases m) as Hk. cbv zeta in Hk.
    exists (released
              (observe [EvKill (process (gov m))]
                 (Proc.Kill (process (gov m))
                    (Runtime.lock_wait Background (world (env m))))
                 (acquired Background
                    (Runtime.lock_wait Background (world (env m))) m))),
      (EvLock Background :: [EvKill (process (gov m))] ++ [EvUnlock]).
    split; [exact Hk|]. split; [|split].
    + eapply lock_guarded_section with (inside := [EvKill (process (gov m))]);
        [apply Lock_Background | simpl; now rewrite <- app_assoc
        | repeat constructor].
    + simpl. now rewrite <- !app_assoc.
    + exists [EvKill (process (gov m))]. split; [reflexivity|repeat constructor].
  - intros m. destruct (Wait_cases m) as (werr & w1 & m1 & _ & Hw & Hg & Htr).
    exists werr, (released m1),
      (EvLock Background :: [EvWait (process (gov m))] ++ [EvUnlock]).
    split; [exact Hw|]. split; [|split].
    + eapply lock_guarded_section with (inside := [EvWait (process (gov m))]);
        [apply Lock_Background | simpl; rewrite Htr; now rewrite <- app_assoc
        | repeat constructor].
    + simpl. rewrite Htr. simpl. now rewrite <- !app_assoc.
    + exists [EvWait (process (gov m))]. split; [reflexivity|repeat constructor].
Qed.

End Discipline.

Section Payload.

Context {W H : Type} {P : Proc.Process W H} {R : Runtime.Runtime W}.

Implicit Types (m : Machine W H) (ctx : context) (data : bytes).

(** C9.  The payload of a retry.  Every Send that a call of
    [Exchange] makes, on the first attempt and on every attempt after
    a respawn, carries the caller's context and the caller's payload,
    whatever bytes the failed attempts returned; every Receive is
    made under the caller's context as well. *)
Theorem Exchange_resends_original_payload (fuel : nat) ctx data m o m' :
  Exchange fuel ctx data m = (o, m') ->
  exists evs,
    trace (env m') = trace (env m) ++ evs
    /\ (forall (p : H) (c : context) (d : bytes),
           In (EvSend p c d) evs -> c = ctx /\ d = data)
    /\ (forall (p : H) (c : context),
           In (EvReceive p c) evs -> c = ctx).
Proof.
  intros Hrun.
  destruct (Lock_cases ctx m) as [Hok | (cerr & He & Hko)]; cbv zeta in *.
  - rewrite (Exchange_runs_loop _ _ _ _ _ Hok) in Hrun.
    unfold deferred in Hrun.
    destruct (Exchange_loop fuel ctx data _) as [o1 m1'] eqn:Hloop.
    destruct (Exchange_loop_events _ _ _ _ _ _ Hloop) as (evs & Htr & Hall & _).
    simpl in Htr. rewrite Forall_forall in Hall.
    assert (Hdone :
              forall tail : list (Event H),
                (tail = [] \/ tail = [EvUnlock]) ->
                (forall p c d,
                    In (EvSend p c d) (EvLock ctx :: evs ++ tail) ->
                    c = ctx /\ d = data)
                /\ (forall p c,
                       In (EvReceive p c) (EvLock ctx :: evs ++ tail) ->
                       c = ctx)).
    { intros tail Htail. split.
      - intros p c d [Hin|Hin]; [discriminate|].
        apply in_app_or in Hin. destruct Hin as [Hin|Hin].
        + exact (Hall _ Hin).
        + destruct Htail; subst tail; simpl in Hin;
            [contradiction | destruct Hin as [Hin|[]]; discriminate].
      - intros p c [Hin|Hin]; [discriminate|].
        apply in_app_or in Hin. destruct Hin as [Hin|Hin].
        + exact (Hall _ Hin).
        + destruct Htail; subst tail; simpl in Hin;
            [contradiction | destruct Hin as [Hin|[]]; discriminate]. }
    destruct o1 as [a|msg|].
    + rewrite call_unlock in Hrun. inversion Hrun; subst.
      exists (EvLock ctx :: evs ++ [EvUnlock]). split.
      * simpl. rewrite Htr. now rewrite <- !app_assoc.
      * apply Hdone. now right.
    + rewrite call_unlock in Hrun. inversion Hrun; subst.
      exists (EvLock ctx :: evs ++ [EvUnlock]). split.
      * simpl. rewrite Htr. now rewrite <- !app_assoc.
      * apply Hdone. now right.
    + inversion Hrun; subst.
      exists (EvLock ctx :: evs ++ []). split.
      * rewrite Htr, app_nil_r. now rewrite <- !app_assoc.
      * apply Hdone. now left.
  - rewrite (Exchange_lock_failed _ _ _ _ _ _ _ Hko) in Hrun.
    inversion Hrun; subst. exists []. simpl.
    split; [now rewrite !app_nil_r|].
    split; intros; contradiction.
Qed.

(** C10.  A failing Send.  In an attempt whose Send fails, Receive is
    not called, and the loop hands the Send error to the same error
    branch ([on_error]) that a Receive error goes to: a Send error
    that is a transient transport failure is followed by [Wait] on the
    current handle, just as such a Receive error is. *)
Theorem Send_error_skips_Receive_and_respawns_alike (fuel : nat) ctx data m :
  Err ctx (world (env m)) = None ->
  let p := process (gov m) in
  match Proc.Send p ctx data (world (env m)) with
  | (Some serr, w1) =>
      let m1 := observe [EvSend p ctx data] w1 m in
      exchange ctx data m = (Returned (nil_bytes, Some serr), m1)
      /\ Exchange_loop (S fuel) ctx data m
         = on_error (Exchange_loop fuel ctx data) serr m1
      /\ (TransientTransportFailure serr ->
          exists evs,
            trace (env (snd (Exchange_loop (S fuel) ctx data m)))
            = trace (env m) ++ EvSend p ctx data :: EvWait p :: evs)
      /\ (~ TransientTransportFailure serr ->
          Exchange_loop (S fuel) ctx data m
          = (Returned (nil_bytes, Some serr),
             logged WARN (Proc.String p ++ " exchange error: " ++ Error serr)
                    m1))
  | (None, w1) =>
      match Proc.Receive p ctx w1 with
      | ((junk, Some rerr), w2) =>
          let m2 := observe [EvSend p ctx data; EvReceive p ctx] w2 m in
          exchange ctx data m = (Returned (junk, Some rerr), m2)
          /\ Exchange_loop (S fuel) ctx data m
             = on_error (Exchange_loop fuel ctx data) rerr m2
          /\ (TransientTransportFailure rerr ->
              exists evs,
                trace (env (snd (Exchange_loop (S fuel) ctx data m)))
                = trace (env m)
                  ++ EvSend p ctx data :: EvReceive p ctx :: EvWait p :: evs)
          /\ (~ TransientTransportFailure rerr ->
              Exchange_loop (S fuel) ctx data m
              = (Returned (nil_bytes, Some rerr),
                 logged WARN (Proc.String p ++ " exchange error: "
                              ++ Error rerr) m2))
      | ((resp, None), w2) =>
          Exchange_loop (S fuel) ctx data m
          = (Returned (resp, None),
             observe [EvSend p ctx data; EvReceive p ctx] w2 m)
      end
  end.
Proof.
  intros He p.
  pose proof (exchange_cases ctx data m) as Hc. cbv zeta in Hc. fold p in Hc.
  destruct (Proc.Send p ctx data _) as [[serr|] w1].
  - cbv zeta. split; [exact Hc|].
    split; [exact (Exchange_loop_attempt fuel _ _ _ _ _ He Hc)|]. split.
    + intros Htf. apply transport_failure_iff in Htf.
      destruct (Exchange_loop (S fuel) ctx data m) as [o m'] eqn:Hrun.
      destruct (respawn_path_starts_with_Wait _ _ _ _ _ _ _ _ _ He Hc Htf Hrun)
        as [evs Hevs].
      exists evs. simpl in *. now rewrite Hevs, <- app_assoc.
    + intros Hnot. apply transport_failure_false_iff in Hnot.
      exact (Exchange_loop_fatal fuel _ _ _ _ _ _ He Hc Hnot).
  - destruct (Proc.Receive p ctx w1) as [[resp [rerr|]] w2].
    + cbv zeta. split; [exact Hc|].
      split; [exact (Exchange_loop_attempt fuel _ _ _ _ _ He Hc)|]. split.
      * intros Htf. apply transport_failure_iff in Htf.
        destruct (Exchange_loop (S fuel) ctx data m) as [o m'] eqn:Hrun.
        destruct (respawn_path_starts_with_Wait _ _ _ _ _ _ _ _ _ He Hc Htf Hrun)
          as [evs Hevs].
        exists evs. simpl in *. now rewrite Hevs, <- app_assoc.
      * intros Hnot. apply transport_failure_false_iff in Hnot.
        exact (Exchange_loop_fatal fuel _ _ _ _ _ _ He Hc Hnot).
    + exact (Exchange_loop_attempt fuel _ _ _ _ _ He Hc).
Qed.

End Payload.

(** ** Concrete runs against the fake process *)

Section Runs.

Import Fake.

Example Govern_fake :
  governed healthy = Some after_Govern
  /\ governed recover = Some after_Govern
  /\ governed bad_request = Some after_Govern
  /\ governed respawn_fails = Some after_Govern.
Proof. repeat split. Qed.

Example Govern_wraps_spawn_error :
  Govern (P := fake_process {| plan_send := fun _ _ => None;
                          plan_receive := fun _ _ => (R1, None);
                          plan_wait := fun _ => None;
                          plan_spawn := fun _ => Some ErrForkFailed;
                          plan_deadline := fun _ => None;
                          plan_lock_won := false |}) 0 start
  = ((None, Some (Wrap ErrForkFailed "spawn")),
     {| world := boot; trace := [EvSpawn 0]; logs := [] |}).
Proof. reflexivity. Qed.

Example Exchange_healthy :
  Exchange_on healthy 1 (Derived 0) Q after_Govern
  = (Returned (R1, None),
     released
       (observe [EvSend 1 (Derived 0) Q; EvReceive 1 (Derived 0)]
          {| spawn_count := 1; pending := None; killed := []; now := 2 |}
          (acquired (Derived 0) (world (env after_Govern)) after_Govern))).
Proof. reflexivity. Qed.

(** An error that is EOF by its own [Is] method only is a transient
    transport failure, and [Exchange] respawns on it. *)
Example eofLike_is_EOF :
  Is eofLike io_EOF = true
  /\ transport_failure eofLike = true
  /\ TransientTransportFailure eofLike
  /\ ~ In io_EOF (chain eofLike)
  /\ Strings.Contains (Error eofLike) "file already closed" = false
  /\ Strings.Contains (Error eofLike) "broken pipe" = false.
Proof.
  split; [reflexivity|]. split; [reflexivity|].
  split; [apply transport_failure_iff; reflexivity|].
  split; [|split; reflexivity].
  intros [Heq | []]. discriminate Heq.
Qed.

Example Exchange_respawns_on_eofLike :
  let r := Exchange_on eof_like 2 (Derived 0) Q after_Govern in
  fst r = Returned (R2, None)
  /\ process (gov (snd r)) = 2
  /\ trace (env (snd r))
     = [EvSpawn 0; EvLock (Derived 0);
        EvSend 1 (Derived 0) Q; EvReceive 1 (Derived 0);
        EvWait 1; EvSpawn 1;
        EvSend 2 (Derived 0) Q; EvReceive 2 (Derived 0); EvUnlock].
Proof. vm_compute. repeat split. Qed.

Example Exchange_out_of_fuel :
  fst (Exchange_on recover 1 (Derived 0) Q after_Govern) = OutOfFuel.
Proof. reflexivity. Qed.

Lemma Exchange_recovers_from_transport_failure_witness :
  exists m1 m2 m',
    Lock_on recover (Derived 0) after_Govern = (Returned (unlock, None), m1)
    /\ Err (R := fake_runtime recover) (Derived 0) (world (env m1)) = None
    /\ exchange_on recover (Derived 0) Q m1 = (Returned (R1, Some io_EOF), m2)
    /\ TransientTransportFailure io_EOF
    /\ Exchange_on recover 2 (Derived 0) Q after_Govern
       = (Returned (R2, None), m')
    /\ process (gov m') = 2
    /\ trace (env m')
       = [EvSpawn 0; EvLock (Derived 0);
          EvSend 1 (Derived 0) Q; EvReceive 1 (Derived 0);
          EvWait 1; EvSpawn 1;
          EvSend 2 (Derived 0) Q; EvReceive 2 (Derived 0); EvUnlock].
Proof.
  pose (m1 := snd (Lock_on recover (Derived 0) after_Govern)).
  pose (m2 := snd (exchange_on recover (Derived 0) Q m1)).
  assert (Ht : TransientTransportFailure io_EOF)
    by (apply transport_failure_iff; reflexivity).
  destruct (Exchange_recovers_from_transport_failure
              (P := fake_process recover) (R := fake_runtime recover)
              0 (Derived 0) Q R2 R1 io_EOF after_Govern m1 m2 2
              _ _ _ _
              eq_refl eq_refl eq_refl Ht eq_refl eq_refl eq_refl eq_refl eq_refl)
    as (m' & Hrun & Hp & _ & Htr & _).
  exists m1, m2, m'. repeat split; trivial.
Defined.

Example Exchange_respawn_fails :
  Exchange_on respawn_fails 1 (Derived 0) Q after_Govern
  = (Returned (nil_bytes, Some (Wrap ErrForkFailed "respawn")),
     released
       (observe [EvWait 1; EvSpawn 1]
          {| spawn_count := 1; pending := None; killed := []; now := 2 |}
          (logged WARN "worker#1 exchange error: EOF"
             (observe [EvSend 1 (Derived 0) Q; EvReceive 1 (Derived 0)]
                {| spawn_count := 1; pending := None; killed := []; now := 2 |}
                (after_Lock (Derived 0)))))).
Proof. reflexivity. Qed.

Example Exchange_deadline_after_respawn :
  exists m',
    Exchange_on expiring 5 (Derived 1) Q after_Govern
    = (Returned (nil_bytes, Some DeadlineExceeded), m')
    /\ process (gov m') = 2
    /\ trace (env m')
       = [EvSpawn 0; EvLock (Derived 1);
          EvSend 1 (Derived 1) Q; EvReceive 1 (Derived 1);
          EvWait 1; EvSpawn 1; EvUnlock].
Proof. eexists. split; [reflexivity|]. split; reflexivity. Qed.

Lemma Exchange_classifies_transport_failures_witness :
  exists m2 o m',
    Err_on broken_pipe (Derived 0) (world (env (after_Lock (Derived 0)))) = None
    /\ exchange_on broken_pipe (Derived 0) Q (after_Lock (Derived 0))
       = (Returned (nil_bytes, Some (Chain "write |1: broken pipe" EPIPE)), m2)
    /\ Exchange_loop_on broken_pipe 2 (Derived 0) Q (after_Lock (Derived 0))
       = (o, m')
    /\ (TransientTransportFailure (Chain "write |1: broken pipe" EPIPE)
        <-> exists evs,
             trace (env m') = trace (env m2) ++ EvWait 1 :: evs)
    /\ o = Returned (R2, None).
Proof.
  pose (m2 := snd (exchange_on broken_pipe (Derived 0) Q (after_Lock (Derived 0)))).
  pose (r := Exchange_loop_on broken_pipe 2 (Derived 0) Q (after_Lock (Derived 0))).
  exists m2, (fst r), (snd r).
  split; [reflexivity|]. split; [reflexivity|]. split; [reflexivity|].
  split; [|reflexivity].
  exact (proj1 (Exchange_classifies_transport_failures
                  (P := fake_process broken_pipe) (R := fake_runtime broken_pipe)
                  1 (Derived 0) Q (after_Lock (Derived 0)) nil_bytes
                  (Chain "write |1: broken pipe" EPIPE) m2 (fst r) (snd r)
                  eq_refl eq_refl eq_refl)).
Defined.

Lemma Exchange_reaps_before_respawn_witness :
  exists m2 m',
    Err_on reap_fails (Derived 0) (world (env (after_Lock (Derived 0)))) = None
    /\ exchange_on reap_fails (Derived 0) Q (after_Lock (Derived 0))
       = (Returned (nil_bytes, Some io_EOF), m2)
    /\ TransientTransportFailure io_EOF
    /\ Exchange_loop_on reap_fails 1 (Derived 0) Q (after_Lock (Derived 0))
       = (Returned (nil_bytes, Some ErrNoChild), m')
    /\ trace (env m') = trace (env m2) ++ [EvWait 1]
    /\ process (gov m') = 1
    /\ Exchange_on reap_fails 1 (Derived 0) Q after_Govern
       = (Returned (nil_bytes, Some ErrNoChild), released m').
Proof.
  pose (m2 := snd (exchange_on reap_fails (Derived 0) Q (after_Lock (Derived 0)))).
  assert (Ht : TransientTransportFailure io_EOF)
    by (apply transport_failure_iff; reflexivity).
  pose proof (Exchange_reaps_before_respawn
                (P := fake_process reap_fails) (R := fake_runtime reap_fails)
                0 (Derived 0) Q (after_Lock (Derived 0)) nil_bytes io_EOF m2
                eq_refl eq_refl Ht) as Hc.
  hnf in Hc. destruct Hc as (m' & Hrun & Htr & Hp & _ & Hex).
  exists m2, m'. repeat split; trivial.
  exact (Hex after_Govern eq_refl).
Defined.

(** C4, as stated, fails: the worker rejects the request with
    [ErrBadRequest], which is not a transient transport failure, and
    [Exchange] returns [ErrBadRequest] itself, not an error wrapped with
    the label "exchange". *)
Lemma Exchange_adds_no_exchange_label :
  ~ TransientTransportFailure ErrBadRequest
  /\ exchange_on bad_request (Derived 0) Q (after_Lock (Derived 0))
     = (Returned (nil_bytes, Some ErrBadRequest),
        observe [EvSend 1 (Derived 0) Q]
          {| spawn_count := 1; pending := None; killed := []; now := 1 |}
          (after_Lock (Derived 0)))
  /\ (exists m',
        Exchange_on bad_request 1 (Derived 0) Q after_Govern
        = (Returned (nil_bytes, Some ErrBadRequest), m'))
  /\ ~ (exists cause m',
          Exchange_on bad_request 1 (Derived 0) Q after_Govern
          = (Returned (nil_bytes, Some (Wrap cause "exchange")), m'))
  /\ Strings.Contains (Error ErrBadRequest) "exchange" = false.
Proof.
  split; [apply transport_failure_false_iff; reflexivity|].
  split; [reflexivity|].
  split; [eexists; reflexivity|].
  split; [|reflexivity].
  intros (cause & m' & Hrun).
  assert (Hpos : fst (Exchange_on bad_request 1 (Derived 0) Q after_Govern)
                 = Returned (nil_bytes, Some ErrBadRequest)) by reflexivity.
  rewrite Hrun in Hpos. simpl in Hpos. discriminate Hpos.
Qed.

Lemma Exchange_returns_other_errors_unwrapped_witness :
  exists m2 m',
    Err_on bad_request (Derived 0) (world (env (after_Lock (Derived 0)))) = None
    /\ exchange_on bad_request (Derived 0) Q (after_Lock (Derived 0))
       = (Returned (nil_bytes, Some ErrBadRequest), m2)
    /\ ~ TransientTransportFailure ErrBadRequest
    /\ Exchange_loop_on bad_request 1 (Derived 0) Q (after_Lock (Derived 0))
       = (Returned (nil_bytes, Some ErrBadRequest), m')
    /\ Exchange_on bad_request 1 (Derived 0) Q after_Govern
       = (Returned (nil_bytes, Some ErrBadRequest), released m').
Proof.
  pose (m2 := snd (exchange_on bad_request (Derived 0) Q (after_Lock (Derived 0)))).
  assert (Hn : ~ TransientTransportFailure ErrBadRequest)
    by (apply transport_failure_false_iff; reflexivity).
  destruct (Exchange_returns_other_errors_unwrapped
              (P := fake_process bad_request) (R := fake_runtime bad_request)
              0 (Derived 0) Q (after_Lock (Derived 0)) nil_bytes ErrBadRequest m2
              eq_refl eq_refl Hn)
    as (returned & m' & Hrun & Heq & _ & _ & _ & _ & Hex).
  subst returned.
  exists m2, m'. repeat split; trivial.
  exact (Hex after_Govern eq_refl).
Defined.

Lemma Exchange_application_error_no_respawn_witness :
  exists m2 m'',
    Err_on bad_request (Derived 0) (world (env (after_Lock (Derived 0)))) = None
    /\ exchange_on bad_request (Derived 0) Q (after_Lock (Derived 0))
       = (Returned (nil_bytes, Some ErrBadRequest), m2)
    /\ ~ TransientTransportFailure ErrBadRequest
    /\ Exchange_on bad_request 1 (Derived 0) Q after_Govern
       = (Returned (nil_bytes, Some ErrBadRequest), m'')
    /\ process (gov m'') = 1
    /\ count is_spawn (trace (env m'')) = 1
    /\ count is_wait (trace (env m'')) = 0.
Proof.
  pose (m2 := snd (exchange_on bad_request (Derived 0) Q (after_Lock (Derived 0)))).
  assert (Hn : ~ TransientTransportFailure ErrBadRequest)
    by (apply transport_failure_false_iff; reflexivity).
  destruct (Exchange_application_error_no_respawn
              (P := fake_process bad_request) (R := fake_runtime bad_request)
              0 (Derived 0) Q (after_Lock (Derived 0)) nil_bytes ErrBadRequest m2
              eq_refl eq_refl Hn)
    as (m' & _ & _ & _ & _ & Hex).
  destruct (Hex after_Govern eq_refl) as (m'' & Hrun & Hp & (evs & Htr & Hw & _) & Hs).
  exists m2, m''. repeat split; trivial.
  rewrite Htr, count_app, Hw. reflexivity.
Defined.

Lemma Exchange_returns_context_error_witness :
  Err_on expiring (Derived 0) (world (env (after_Lock (Derived 0))))
  = Some DeadlineExceeded
  /\ Exchange_loop_on expiring 1 (Derived 0) Q (after_Lock (Derived 0))
     = (Returned (nil_bytes, Some DeadlineExceeded), after_Lock (Derived 0))
  /\ Exchange_on expiring 1 (Derived 0) Q after_Govern
     = (Returned (nil_bytes, Some DeadlineExceeded),
        released (after_Lock (Derived 0)))
  /\ trace (env (released (after_Lock (Derived 0))))
     = [EvSpawn 0; EvLock (Derived 0); EvUnlock].
Proof.
  destruct (Exchange_returns_context_error
              (P := fake_process expiring) (R := fake_runtime expiring)
              0 (Derived 0) Q (after_Lock (Derived 0)) DeadlineExceeded eq_refl)
    as (Hloop & Hex).
  destruct (Hex after_Govern eq_refl) as (Hrun & Htr & _).
  repeat split; trivial.
Defined.

Example ExchangeDirect_observes_the_failure :
  ExchangeDirect_on recover (Derived 0) Q after_Govern
  = (Returned (R1, Some io_EOF),
     released
       (observe [EvSend 1 (Derived 0) Q; EvReceive 1 (Derived 0)]
          {| spawn_count := 1; pending := None; killed := []; now := 2 |}
          (after_Lock (Derived 0)))).
Proof. reflexivity. Qed.

Example Lock_fails_when_context_is_done_first :
  ExchangeDirect_on contended (Derived 0) Q after_Govern
  = (Returned (nil_bytes, Some DeadlineExceeded),
     observe [] (world (env after_Govern)) after_Govern)
  /\ Exchange_on contended 3 (Derived 0) Q after_Govern
     = (Returned (nil_bytes, Some DeadlineExceeded),
        observe [] (world (env after_Govern)) after_Govern)
  /\ trace (env (observe [] (world (env after_Govern)) after_Govern))
     = [EvSpawn 0].
Proof. repeat split. Qed.

Example Kill_then_Wait :
  exists m1 m2,
    Kill_on healthy after_Govern = (Returned tt, m1)
    /\ Wait_on healthy m1 = (Returned None, m2)
    /\ trace (env m2)
       = [EvSpawn 0; EvLock Background; EvKill 1; EvUnlock;
          EvLock Background; EvWait 1; EvUnlock]
    /\ logs (env m2)
       = [(DEBUG, "worker#1 started successfully");
          (DEBUG, "worker#1 completed successfully")].
Proof. do 2 eexists. repeat split. Qed.

Lemma mutex_released_once_per_acquisition_witness :
  exists o m',
    Exchange_on recover 2 (Derived 0) Q after_Govern = (o, m')
    /\ o <> OutOfFuel
    /\ lock_guarded (R := fake_runtime recover) (Derived 0) after_Govern m'.
Proof.
  pose (r := Exchange_on recover 2 (Derived 0) Q after_Govern).
  assert (Hexit : fst r <> OutOfFuel) by (vm_compute; discriminate).
  exists (fst r), (snd r). split; [reflexivity|]. split; [exact Hexit|].
  exact (proj1 (mutex_released_once_per_acquisition
                  (P := fake_process recover) (R := fake_runtime recover))
               2 (Derived 0) Q after_Govern (fst r) (snd r) eq_refl Hexit).
Defined.

Lemma Exchange_resends_original_payload_witness :
  exists o m',
    Exchange_on recover 2 (Derived 0) Q after_Govern = (o, m')
    /\ count is_send (trace (env m')) = 2
    /\ exists evs,
        trace (env m') = trace (env after_Govern) ++ evs
        /\ (forall p c d, In (EvSend p c d) evs -> c = Derived 0 /\ d = Q)
        /\ (forall p c, In (EvReceive p c) evs -> c = Derived 0).
Proof.
  pose (r := Exchange_on recover 2 (Derived 0) Q after_Govern).
  exists (fst r), (snd r). split; [reflexivity|]. split; [reflexivity|].
  exact (Exchange_resends_original_payload
           (P := fake_process recover) (R := fake_runtime recover)
           2 (Derived 0) Q after_Govern (fst r) (snd r) eq_refl).
Defined.

Lemma Send_error_skips_Receive_and_respawns_alike_witness :
  Err_on broken_pipe (Derived 0) (world (env (after_Lock (Derived 0)))) = None
  /\ exchange_on broken_pipe (Derived 0) Q (after_Lock (Derived 0))
     = (Returned (nil_bytes, Some (Chain "write |1: broken pipe" EPIPE)),
        observe [EvSend 1 (Derived 0) Q]
          {| spawn_count := 1; pending := None; killed := []; now := 1 |}
          (after_Lock (Derived 0)))
  /\ (TransientTransportFailure (Chain "write |1: broken pipe" EPIPE) ->
      exists evs,
        trace (env (snd (Exchange_loop_on broken_pipe 2 (Derived 0) Q
                           (after_Lock (Derived 0)))))
        = trace (env (after_Lock (Derived 0)))
          ++ EvSend 1 (Derived 0) Q :: EvWait 1 :: evs).
Proof.
  pose proof (Send_error_skips_Receive_and_respawns_alike
                (P := fake_process broken_pipe) (R := fake_runtime broken_pipe)
                1 (Derived 0) Q (after_Lock (Derived 0)) eq_refl) as Hc.
  hnf in Hc. destruct Hc as (Hx & _ & Ht & _).
  split; [reflexivity|]. split; [exact Hx | exact Ht].
Defined.

End Runs.

(** ** Every run of the loop, by induction on its shape *)

Section Loop_runs.

Context {W H : Type} {P : Proc.Process W H} {R : Runtime.Runtime W}.

Implicit Types (m : Machine W H) (ctx : context) (data : bytes).

(** The relation describes the function: whatever the fuel, the run of
    [Exchange_loop] is a [loop_run]. *)
Lemma Exchange_loop_run (fuel : nat) ctx data :
  forall m o m',
    Exchange_loop fuel ctx data m = (o, m') -> loop_run ctx data m o m'.
Proof.
  induction fuel as [|fuel IH]; intros m o m' Hrun.
  - inversion Hrun; subst. constructor.
  - destruct (Err ctx (world (env m))) as [cerr|] eqn:He.
    + rewrite (Exchange_loop_done fuel _ data _ _ He) in Hrun.
      inversion Hrun; subst. now constructor.
    + destruct (exchange_returns ctx data m) as (r & w & evs & Hx & _).
      rewrite (Exchange_loop_attempt fuel _ _ _ _ _ He Hx) in Hrun.
      destruct r as [data' [err|]].
      * pose proof (on_error_cases (Exchange_loop fuel ctx data) err
                      (observe evs w m)) as Hc.
        cbv zeta in Hc.
        destruct (transport_failure err) eqn:Htf.
        -- destruct (Proc.Wait _ _) as [[werr|] w1] eqn:Hw.
           ++ rewrite Hc in Hrun. inversion Hrun; subst.
              eapply run_reap_failed with (m1 := observe evs w m); eauto.
           ++ destruct (Proc.Spawn _ w1) as [[q|serr] w2] eqn:Hs.
              ** rewrite Hc in Hrun. apply IH in Hrun.
                 eapply run_respawned with (m1 := observe evs w m); eauto.
              ** rewrite Hc in Hrun. inversion Hrun; subst.
                 eapply run_respawn_failed with (m1 := observe evs w m); eauto.
        -- rewrite Hc in Hrun. inversion Hrun; subst.
           eapply run_rejected with (m1 := observe evs w m); eauto.
      * inversion Hrun; subst. eapply run_answered with (m1 := observe evs w m); eauto.
Qed.

(** And the function reaches every run that exits, with enough fuel. *)
Lemma loop_run_Exchange_loop ctx data m o m' :
  loop_run ctx data m o m' ->
  o <> OutOfFuel ->
  exists fuel, Exchange_loop fuel ctx data m = (o, m').
Proof.
  induction 1 as [m | m cerr He | m m1 resp He Hx | m m1 junk err He Hx Htf
                  | m m1 junk err werr w1 He Hx Htf Hw
                  | m m1 junk err serr w1 w2 He Hx Htf Hw Hs
                  | m m1 junk err w1 w2 q o m' He Hx Htf Hw Hs Hrest IH];
    intros Hexit.
  - contradiction.
  - exists 1. now apply Exchange_loop_done.
  - exists 1. now rewrite (Exchange_loop_attempt 0 _ _ _ _ _ He Hx).
  - exists 1. now apply (Exchange_loop_fatal 0 _ _ _ _ _ _ He Hx Htf).
  - exists 1. pose proof (Exchange_loop_respawn 0 _ _ _ _ _ _ He Hx Htf) as Hc.
    cbv zeta in Hc. now rewrite Hw in Hc.
  - exists 1. pose proof (Exchange_loop_respawn 0 _ _ _ _ _ _ He Hx Htf) as Hc.
    cbv zeta in Hc. now rewrite Hw, Hs in Hc.
  - destruct (IH Hexit) as [fuel Hfuel]. exists (S fuel).
    pose proof (Exchange_loop_respawn fuel _ _ _ _ _ _ He Hx Htf) as Hc.
    cbv zeta in Hc. rewrite Hw, Hs in Hc. now rewrite Hc.
Qed.

(** What one attempt adds to the trace. *)
Lemma exchange_trace ctx data m o m1 :
  exchange ctx data m = (o, m1) ->
  gov m1 = gov m
  /\ exists evs,
      trace (env m1) = trace (env m) ++ evs
      /\ (evs = [EvSend (process (gov m)) ctx data]
          \/ evs = [EvSend (process (gov m)) ctx data;
                    EvReceive (process (gov m)) ctx]).
Proof.
  intros Hx. destruct (exchange_inv _ _ _ _ _ Hx) as (r & w & evs & _ & -> & Hevs).
  split; [reflexivity|]. exists evs. split; [reflexivity | exact Hevs].
Qed.

(** Where the error of a failed attempt comes from. *)
Lemma exchange_error_origin ctx data m junk err m1 :
  exchange ctx data m = (Returned (junk, Some err), m1) ->
  exists (p : H) (w : W),
    fst (Proc.Send p ctx data w) = Some err
    \/ snd (fst (Proc.Receive p ctx w)) = Some err.
Proof.
  intros Hx. pose proof (exchange_cases ctx data m) as Hc. cbv zeta in Hc.
  destruct (Proc.Send _ ctx data _) as [[serr|] w1] eqn:Hs.
  - rewrite Hc in Hx. inversion Hx; subst.
    exists (process (gov m)), (world (env m)). left. now rewrite Hs.
  - destruct (Proc.Receive _ ctx w1) as [r w2] eqn:Hr.
    rewrite Hc in Hx. inversion Hx; subst.
    exists (process (gov m)), w1. right. now rewrite Hr.
Qed.

(** What a successful attempt was. *)
Lemma exchange_answer ctx data m resp m1 :
  exchange ctx data m = (Returned (resp, None), m1) ->
  exists w1 w2,
    Proc.Send (process (gov m)) ctx data (world (env m)) = (None, w1)
    /\ Proc.Receive (process (gov m)) ctx w1 = ((resp, None), w2)
    /\ m1 = observe [EvSend (process (gov m)) ctx data;
                     EvReceive (process (gov m)) ctx] w2 m.
Proof.
  intros Hx. pose proof (exchange_cases ctx data m) as Hc. cbv zeta in Hc.
  destruct (Proc.Send _ ctx data _) as [[serr|] w1] eqn:Hs.
  - rewrite Hc in Hx. discriminate.
  - destruct (Proc.Receive _ ctx w1) as [r w2] eqn:Hr.
    rewrite Hc in Hx. inversion Hx; subst. eauto.
Qed.

(** [Exchange] is the lock, a run of the loop and the release. *)
Lemma Exchange_inv (fuel : nat) ctx data m o m' :
  Exchange fuel ctx data m = (o, m') ->
  (exists lerr,
      Err ctx (Runtime.lock_wait ctx (world (env m))) = Some lerr
      /\ o = Returned (nil_bytes, Some lerr)
      /\ m' = observe [] (Runtime.lock_wait ctx (world (env m))) m)
  \/ (exists o1 m1,
        loop_run ctx data
                 (acquired ctx (Runtime.lock_wait ctx (world (env m))) m) o1 m1
        /\ ((o = o1 /\ o1 <> OutOfFuel /\ m' = released m1)
            \/ (o = OutOfFuel /\ o1 = OutOfFuel /\ m' = m1))).
Proof.
  intros Hrun.
  destruct (Lock_cases ctx m) as [Hok | (cerr & He & Hko)]; cbv zeta in *.
  - right. rewrite (Exchange_runs_loop _ _ _ _ _ Hok) in Hrun.
    unfold deferred in Hrun.
    destruct (Exchange_loop fuel ctx data _) as [o1 m1] eqn:Hloop.
    apply Exchange_loop_run in Hloop. exists o1, m1. split; [exact Hloop|].
    destruct o1 as [a|msg|].
    + rewrite call_unlock in Hrun. inversion Hrun; subst.
      left. repeat split. discriminate.
    + rewrite call_unlock in Hrun. inversion Hrun; subst.
      left. repeat split. discriminate.
    + inversion Hrun; subst. right. auto.
  - left. rewrite (Exchange_lock_failed _ _ _ _ _ _ _ Hko) in Hrun.
    inversion Hrun; subst. eauto.
Qed.

End Loop_runs.

(** ** What every call of [Exchange] keeps to *)

Section Whole_calls.

Context {W H : Type} {P : Proc.Process W H} {R : Runtime.Runtime W}.

Implicit Types (m : Machine W H) (ctx : context) (data : bytes).

Lemma count_nil (f : Event H -> bool) : count f [] = 0.
Proof. reflexivity. Qed.

Lemma count_cons (f : Event H -> bool) (ev : Event H) (evs : list (Event H)) :
  count f (ev :: evs) = (if f ev then 1 else 0) + count f evs.
Proof. unfold count. simpl. now destruct (f ev). Qed.

Ltac count_events :=
  rewrite ?count_app, ?count_cons, ?count_nil;
  cbn [is_send is_receive is_spawn is_wait is_kill is_lock is_unlock].

Lemma reaped_first_app (evs1 evs2 : list (Event H)) :
  reaped_first evs1 -> reaped_first evs2 -> reaped_first (evs1 ++ evs2).
Proof.
  induction 1 as [|ev rest Hev _ IH | p rest _ IH]; intros H2; simpl.
  - exact H2.
  - apply reaped_other; auto.
  - apply reaped_respawn; auto.
Qed.

(** In such events, whatever comes before a Spawn ends with the Wait on
    the same handle. *)
Lemma reaped_first_spec (evs : list (Event H)) :
  reaped_first evs ->
  forall (before after : list (Event H)) (p : H),
    evs = before ++ EvSpawn p :: after ->
    exists earlier, before = earlier ++ [EvWait p].
Proof.
  induction 1 as [|ev rest Hev _ IH | q rest _ IH]; intros before after p Heq.
  - destruct before; discriminate.
  - destruct before as [|b before]; simpl in Heq.
    + inversion Heq; subst. discriminate.
    + inversion Heq; subst.
      destruct (IH _ _ _ eq_refl) as [earlier ->].
      now exists (b :: earlier).
  - destruct before as [|b [|b' before]]; simpl in Heq.
    + discriminate.
    + inversion Heq; subst. now exists [].
    + inversion Heq; subst.
      destruct (IH _ _ _ eq_refl) as [earlier ->].
      now exists (EvWait q :: EvSpawn q :: earlier).
Qed.

Lemma attempt_reaped_first (p : H) ctx data (evs : list (Event H)) :
  evs = [EvSend p ctx data] \/ evs = [EvSend p ctx data; EvReceive p ctx] ->
  reaped_first evs.
Proof.
  intros [-> | ->]; repeat (apply reaped_other; [reflexivity|]); constructor.
Qed.

Lemma loop_run_reaped_first ctx data m o m' :
  loop_run ctx data m o m' ->
  exists evs, trace (env m') = trace (env m) ++ evs /\ reaped_first evs.
Proof.
  induction 1 as [m | m cerr He | m m1 resp He Hx | m m1 junk err He Hx Htf
                  | m m1 junk err werr w1 He Hx Htf Hw
                  | m m1 junk err serr w1 w2 He Hx Htf Hw Hs
                  | m m1 junk err w1 w2 q o m' He Hx Htf Hw Hs Hrest IH];
    try (exists []; split; [now rewrite app_nil_r | constructor]);
    destruct (exchange_trace _ _ _ _ _ Hx) as (Hg & evs & Htr & Hevs);
    apply attempt_reaped_first in Hevs.
  - exists evs. auto.
  - exists evs. auto.
  - exists (evs ++ [EvWait (process (gov m1))]). simpl.
    rewrite Htr, <- app_assoc. split; [reflexivity|].
    apply reaped_first_app; [exact Hevs|].
    apply reaped_other; [reflexivity | constructor].
  - exists (evs ++ [EvWait (process (gov m1)); EvSpawn (process (gov m1))]).
    simpl. rewrite Htr, <- app_assoc. split; [reflexivity|].
    apply reaped_first_app; [exact Hevs|]. apply reaped_respawn. constructor.
  - destruct IH as (evs' & Htr' & Hevs'). simpl in Htr'.
    exists (evs ++ EvWait (process (gov m1)) :: EvSpawn (process (gov m1)) :: evs').
    rewrite Htr', Htr, <- !app_assoc. split; [reflexivity|].
    apply reaped_first_app; [exact Hevs|]. now apply reaped_respawn.
Qed.

(** X1.  Reap before every respawn.  In the events of a call of [Exchange],
    however many times the loop went round and however the call ended,
    every Spawn comes directly after a Wait on the very handle it is
    called on. *)
Theorem Exchange_reaps_before_every_Spawn (fuel : nat) ctx data m o m' :
  Exchange fuel ctx data m = (o, m') ->
  exists evs,
    trace (env m') = trace (env m) ++ evs
    /\ forall (before after : list (Event H)) (p : H),
        evs = before ++ EvSpawn p :: after ->
        exists earlier, before = earlier ++ [EvWait p].
Proof.
  intros Hrun.
  destruct (Exchange_inv _ _ _ _ _ _ Hrun)
    as [(lerr & _ & _ & ->) | (o1 & m1 & Hloop & Hend)].
  - exists []. split; [reflexivity|].
    intros before after p Heq. destruct before; discriminate.
  - destruct (loop_run_reaped_first _ _ _ _ _ Hloop) as (evs & Htr & Hevs).
    simpl in Htr.
    assert (Hlock : reaped_first [@EvLock H ctx])
      by (apply reaped_other; [reflexivity | constructor]).
    assert (Hunlock : reaped_first [@EvUnlock H])
      by (apply reaped_other; [reflexivity | constructor]).
    destruct Hend as [(_ & _ & ->) | (_ & _ & ->)].
    + exists ([EvLock ctx] ++ evs ++ [EvUnlock]). split.
      * simpl. rewrite Htr, <- !app_assoc. reflexivity.
      * apply reaped_first_spec.
        apply reaped_first_app; [exact Hlock|].
        apply reaped_first_app; [exact Hevs | exact Hunlock].
    + exists ([EvLock ctx] ++ evs). split.
      * rewrite Htr, <- !app_assoc. reflexivity.
      * apply reaped_first_spec. apply reaped_first_app; [exact Hlock | exact Hevs].
Qed.

Lemma loop_run_budget ctx data m o m' :
  loop_run ctx data m o m' ->
  exists evs,
    trace (env m') = trace (env m) ++ evs
    /\ count is_kill evs = 0
    /\ count is_lock evs = 0
    /\ count is_unlock evs = 0
    /\ count is_receive evs <= count is_send evs
    /\ count is_send evs <= count is_spawn evs + 1
    /\ count is_spawn evs <= count is_wait evs
    /\ count is_wait evs <= count is_send evs.
Proof.
  induction 1 as [m | m cerr He | m m1 resp He Hx | m m1 junk err He Hx Htf
                  | m m1 junk err werr w1 He Hx Htf Hw
                  | m m1 junk err serr w1 w2 He Hx Htf Hw Hs
                  | m m1 junk err w1 w2 q o m' He Hx Htf Hw Hs Hrest IH];
    try (exists []; split; [now rewrite app_nil_r | count_events; lia]);
    destruct (exchange_trace _ _ _ _ _ Hx) as (Hg & evs & Htr & Hevs).
  - exists evs. split; [exact Htr|].
    destruct Hevs as [-> | ->]; count_events; lia.
  - exists evs. split; [exact Htr|].
    destruct Hevs as [-> | ->]; count_events; lia.
  - exists (evs ++ [EvWait (process (gov m1))]). simpl.
    rewrite Htr, <- app_assoc. split; [reflexivity|].
    destruct Hevs as [-> | ->]; count_events; lia.
  - exists (evs ++ [EvWait (process (gov m1)); EvSpawn (process (gov m1))]).
    simpl. rewrite Htr, <- app_assoc. split; [reflexivity|].
    destruct Hevs as [-> | ->]; count_events; lia.
  - destruct IH as (evs' & Htr' & Hk & Hl & Hu & Hr & Hsd & Hsp & Hwt).
    simpl in Htr'.
    exists (evs ++ [EvWait (process (gov m1)); EvSpawn (process (gov m1))] ++ evs').
    rewrite Htr', Htr, <- !app_assoc. split; [reflexivity|].
    destruct Hevs as [-> | ->]; count_events; lia.
Qed.

(** X2.  The budget of a call.  In the events of a call of [Exchange],
    whatever the fuel and however it ended: the process is never
    killed; there are no more Receives than Sends; every Send after the
    first was paid for by a Spawn; every Spawn was preceded by a Wait
    and every Wait by a Send. *)
Theorem Exchange_call_budget (fuel : nat) ctx data m o m' :
  Exchange fuel ctx data m = (o, m') ->
  exists evs,
    trace (env m') = trace (env m) ++ evs
    /\ count is_kill evs = 0
    /\ count is_lock evs <= 1
    /\ count is_receive evs <= count is_send evs
    /\ count is_send evs <= count is_spawn evs + 1
    /\ count is_spawn evs <= count is_wait evs
    /\ count is_wait evs <= count is_send evs.
Proof.
  intros Hrun.
  destruct (Exchange_inv _ _ _ _ _ _ Hrun)
    as [(lerr & _ & _ & ->) | (o1 & m1 & Hloop & Hend)].
  - exists []. split; [reflexivity|]. count_events. lia.
  - destruct (loop_run_budget _ _ _ _ _ Hloop)
      as (evs & Htr & Hk & Hl & Hu & Hr & Hsd & Hsp & Hwt).
    simpl in Htr.
    destruct Hend as [(_ & _ & ->) | (_ & _ & ->)].
    + exists ([EvLock ctx] ++ evs ++ [EvUnlock]). split.
      * simpl. rewrite Htr, <- !app_assoc. reflexivity.
      * count_events. lia.
    + exists ([EvLock ctx] ++ evs). split.
      * rewrite Htr, <- !app_assoc. reflexivity.
      * count_events. lia.
Qed.

End Whole_calls.

(** ** What a call of [Exchange] returns *)

Section Results.

Context {W H : Type} {P : Proc.Process W H} {R : Runtime.Runtime W}.

Implicit Types (m : Machine W H) (ctx : context) (data : bytes).

Lemma loop_run_trace ctx data m o m' :
  loop_run ctx data m o m' ->
  exists evs, trace (env m') = trace (env m) ++ evs.
Proof.
  intros Hrun. destruct (loop_run_reaped_first _ _ _ _ _ Hrun) as (evs & Htr & _).
  eauto.
Qed.

Lemma loop_run_answer ctx data m resp m' :
  loop_run ctx data m (Returned (resp, None)) m' ->
  exists (last : Machine W H) (w1 : W) (evs : list (Event H)),
    trace (env last) = trace (env m) ++ evs
    /\ mu (gov last) = mu (gov m)
    /\ Err ctx (world (env last)) = None
    /\ Proc.Send (process (gov last)) ctx data (world (env last)) = (None, w1)
    /\ Proc.Receive (process (gov last)) ctx w1 = ((resp, None), world (env m'))
    /\ m' = observe [EvSend (process (gov last)) ctx data;
                     EvReceive (process (gov last)) ctx] (world (env m')) last.
Proof.
  intros Hrun. remember (Returned (resp, None)) as o eqn:Ho.
  induction Hrun as [m | m cerr He | m m1 resp' He Hx | m m1 junk err He Hx Htf
                     | m m1 junk err werr w1 He Hx Htf Hw
                     | m m1 junk err serr w1 w2 He Hx Htf Hw Hs
                     | m m1 junk err w1 w2 q o m' He Hx Htf Hw Hs Hrest IH];
    try discriminate.
  - inversion Ho; subst resp'.
    destruct (exchange_answer _ _ _ _ _ Hx) as (w1 & w2 & Hs & Hr & ->).
    exists m, w1, []. rewrite app_nil_r. simpl. repeat split; auto.
  - destruct (IH Ho) as (last & w1' & evs & Htr & Hmu & He' & Hs' & Hr' & Hm').
    destruct (exchange_trace _ _ _ _ _ Hx) as (Hg & evs0 & Htr0 & _).
    simpl in Htr, Hmu.
    exists last, w1',
      (evs0 ++ [EvWait (process (gov m1)); EvSpawn (process (gov m1))] ++ evs).
    rewrite Htr, Htr0, <- !app_assoc. rewrite Hmu, Hg.
    repeat split; auto.
Qed.

(** X3.  A successful call.  When [Exchange] returns bytes and no error, the
    bytes are what [Receive] returned on the handle the governor holds
    at the end, in answer to a [Send] of the caller's payload on that
    handle, made while the context was not done; that Send and Receive
    are the last calls before the mutex is released. *)
Theorem Exchange_answer_is_current_handles_reply
        (fuel : nat) ctx data m (resp : bytes) m' :
  Exchange fuel ctx data m = (Returned (resp, None), m') ->
  exists (last : Machine W H) (w1 : W) (evs : list (Event H)),
    trace (env last) = trace (env m) ++ EvLock ctx :: evs
    /\ process (gov last) = process (gov m')
    /\ Err ctx (world (env last)) = None
    /\ Proc.Send (process (gov m')) ctx data (world (env last)) = (None, w1)
    /\ Proc.Receive (process (gov m')) ctx w1 = ((resp, None), world (env m'))
    /\ trace (env m')
       = trace (env last)
         ++ [EvSend (process (gov m')) ctx data;
             EvReceive (process (gov m')) ctx; EvUnlock].
Proof.
  intros Hrun.
  destruct (Exchange_inv _ _ _ _ _ _ Hrun)
    as [(lerr & _ & Ho & _) | (o1 & m1 & Hloop & Hend)]; [discriminate|].
  destruct Hend as [(<- & _ & ->) | (Ho & _ & _)]; [|discriminate].
  destruct (loop_run_answer _ _ _ _ _ Hloop)
    as (last & w1 & evs & Htr & _ & He & Hs & Hr & Hm1).
  assert (Hp : process (gov m1) = process (gov last))
    by (rewrite Hm1; reflexivity).
  assert (Htr1 : trace (env m1)
                 = trace (env last)
                   ++ [EvSend (process (gov last)) ctx data;
                       EvReceive (process (gov last)) ctx])
    by (rewrite Hm1 at 1; reflexivity).
  exists last, w1, evs. simpl in Htr. simpl. rewrite Hp.
  split; [now rewrite Htr, <- app_assoc|].
  split; [reflexivity|]. split; [exact He|].
  split; [exact Hs|]. split; [exact Hr|].
  now rewrite Htr1, <- app_assoc.
Qed.

Lemma loop_run_error ctx data m (b : bytes) (e : error) m' :
  loop_run ctx data m (Returned (b, Some e)) m' ->
  b = nil_bytes
  /\ ((exists w, Err ctx w = Some e)
      \/ (exists (p : H) (w : W), fst (Proc.Wait p w) = Some e)
      \/ (exists (p : H) (w : W) (serr : error),
             fst (Proc.Spawn p w) = Proc.Failed serr
             /\ e = Wrap serr "respawn")
      \/ (transport_failure e = false
          /\ exists (p : H) (w : W),
              fst (Proc.Send p ctx data w) = Some e
              \/ snd (fst (Proc.Receive p ctx w)) = Some e)).
Proof.
  intros Hrun. remember (Returned (b, Some e)) as o eqn:Ho.
  induction Hrun as [m | m cerr He | m m1 resp' He Hx | m m1 junk err He Hx Htf
                     | m m1 junk err werr w1 He Hx Htf Hw
                     | m m1 junk err serr w1 w2 He Hx Htf Hw Hs
                     | m m1 junk err w1 w2 q o m' He Hx Htf Hw Hs Hrest IH];
    try discriminate; try (inversion Ho; subst; clear Ho).
  - split; [reflexivity|]. left. eauto.
  - split; [reflexivity|]. right. right. right. split; [exact Htf|].
    exact (exchange_error_origin _ _ _ _ _ _ Hx).
  - split; [reflexivity|]. right. left.
    exists (process (gov m1)), (world (env m1)). now rewrite Hw.
  - split; [reflexivity|]. right. right. left.
    exists (process (gov m1)), w1, serr. now rewrite Hs.
  - now apply IH.
Qed.

(** X4.  A failed call carries no bytes.  When [Exchange] returns an error,
    the bytes it returns are [nil], also when the failed [Receive]
    handed some back with its error. *)
Theorem Exchange_error_has_no_bytes
        (fuel : nat) ctx data m (b : bytes) (e : error) m' :
  Exchange fuel ctx data m = (Returned (b, Some e), m') ->
  b = nil_bytes.
Proof.
  intros Hrun.
  destruct (Exchange_inv _ _ _ _ _ _ Hrun)
    as [(lerr & _ & Ho & _) | (o1 & m1 & Hloop & Hend)].
  - now inversion Ho.
  - destruct Hend as [(<- & _ & _) | (Ho & _ & _)]; [|discriminate].
    now destruct (loop_run_error _ _ _ _ _ _ Hloop).
Qed.

(** X5.  Where an error of [Exchange] comes from.  An error that [Exchange]
    returns is the context's error (from [Lock] or from the check at
    the top of the loop), or the error of a [Wait], or the error of a
    [Spawn] wrapped with "respawn", or an error of [Send] or [Receive]
    that is not a transient transport failure.  A transient transport
    failure of [Send] or [Receive] is never handed to the caller as it
    is. *)
Theorem Exchange_error_origin
        (fuel : nat) ctx data m (b : bytes) (e : error) m' :
  Exchange fuel ctx data m = (Returned (b, Some e), m') ->
  (exists w, Err ctx w = Some e)
  \/ (exists (p : H) (w : W), fst (Proc.Wait p w) = Some e)
  \/ (exists (p : H) (w : W) (serr : error),
         fst (Proc.Spawn p w) = Proc.Failed serr
         /\ e = Wrap serr "respawn")
  \/ (~ TransientTransportFailure e
      /\ exists (p : H) (w : W),
          fst (Proc.Send p ctx data w) = Some e
          \/ snd (fst (Proc.Receive p ctx w)) = Some e).
Proof.
  intros Hrun.
  destruct (Exchange_inv _ _ _ _ _ _ Hrun)
    as [(lerr & He & Ho & _) | (o1 & m1 & Hloop & Hend)].
  - inversion Ho; subst. left. eauto.
  - destruct Hend as [(<- & _ & _) | (Ho & _ & _)]; [|discriminate].
    destruct (loop_run_error _ _ _ _ _ _ Hloop)
      as (_ & [Hc | [Hw | [Hs | (Htf & Hx)]]]); auto.
    right. right. right. split; [|exact Hx].
    now apply transport_failure_false_iff.
Qed.

(** X6.  A context that is done before the mutex is obtained.  If the
    context is done at the moment [Lock] stops blocking, [Exchange]
    returns the context's error and calls nothing on the process,
    whether or not the mutex was obtained at that moment: the trace
    grows by nothing, or by the acquisition and the release. *)
Theorem Exchange_done_context_never_reaches_process
        (fuel : nat) ctx data m (cerr : error) :
  Err ctx (Runtime.lock_wait ctx (world (env m))) = Some cerr ->
  exists m',
    Exchange (S fuel) ctx data m = (Returned (nil_bytes, Some cerr), m')
    /\ process (gov m') = process (gov m)
    /\ world (env m') = Runtime.lock_wait ctx (world (env m))
    /\ (trace (env m') = trace (env m)
        \/ trace (env m') = trace (env m) ++ [EvLock ctx; EvUnlock]).
Proof.
  intros He.
  destruct (Lock_cases ctx m) as [Hok | (cerr' & He' & Hko)]; cbv zeta in *.
  - rewrite (Exchange_runs_loop _ _ _ _ _ Hok).
    assert (Hdone : Err ctx (world (env (acquired ctx
                      (Runtime.lock_wait ctx (world (env m))) m))) = Some cerr)
      by exact He.
    rewrite (deferred_unlock_returned _ _ _ _
               (Exchange_loop_done fuel ctx data _ cerr Hdone)).
    eexists. split; [reflexivity|]. simpl. rewrite <- app_assoc. auto.
  - rewrite He in He'. inversion He'; subst cerr'.
    rewrite (Exchange_lock_failed _ _ _ _ _ _ _ Hko).
    eexists. split; [reflexivity|]. simpl. rewrite app_nil_r. auto.
Qed.

(** X7.  [Exchange] and [ExchangeDirect] agree when nothing has to be
    retried: when [Lock] fails, and when the mutex is taken, the
    context is not done and the first attempt is answered, the two
    return the same result and leave the same machine. *)
Theorem Exchange_agrees_with_ExchangeDirect (fuel : nat) ctx data m :
  (forall cancel lerr m1,
      Lock ctx m = (Returned (cancel, Some lerr), m1) ->
      Exchange fuel ctx data m = ExchangeDirect ctx data m)
  /\ (forall m1 resp m2,
        Lock ctx m = (Returned (unlock, None), m1) ->
        Err ctx (world (env m1)) = None ->
        exchange ctx data m1 = (Returned (resp, None), m2) ->
        Exchange (S fuel) ctx data m = ExchangeDirect ctx data m
        /\ ExchangeDirect ctx data m = (Returned (resp, None), released m2)).
Proof.
  split.
  - intros cancel lerr m1 Hl.
    rewrite (Exchange_lock_failed _ _ _ _ _ _ _ Hl).
    unfold ExchangeDirect, bind. now rewrite Hl.
  - intros m1 resp m2 Hl He Hx.
    assert (Hd : ExchangeDirect ctx data m = (Returned (resp, None), released m2)).
    { unfold ExchangeDirect, bind. rewrite Hl.
      now apply deferred_unlock_returned. }
    split; [|exact Hd]. rewrite Hd.
    rewrite (Exchange_runs_loop _ _ _ _ _ Hl).
    apply deferred_unlock_returned.
    now rewrite (Exchange_loop_attempt fuel _ _ _ _ _ He Hx).
Qed.

End Results.

(** ** A loop without a bound, construction and teardown *)

Section Lifecycle.

Context {W H : Type} {P : Proc.Process W H} {R : Runtime.Runtime W}.

Implicit Types (m : Machine W H) (ctx : context) (data : bytes).

Ltac count_events :=
  rewrite ?count_app, ?count_cons, ?count_nil;
  cbn [is_send is_receive is_spawn is_wait is_kill is_lock is_unlock].

Lemma Exchange_loop_keeps_respawning ctx data :
  (forall w, Err ctx w = None) ->
  (forall m, exists junk err m1,
        exchange ctx data m = (Returned (junk, Some err), m1)
        /\ TransientTransportFailure err) ->
  (forall (p : H) (w : W), fst (Proc.Wait p w) = None) ->
  (forall (p : H) (w : W), exists q, fst (Proc.Spawn p w) = Proc.Started q) ->
  forall (fuel : nat) m,
  exists m' evs,
    Exchange_loop fuel ctx data m = (OutOfFuel, m')
    /\ trace (env m') = trace (env m) ++ evs
    /\ count is_send evs = fuel
    /\ count is_spawn evs = fuel
    /\ count is_unlock evs = 0.
Proof.
  intros Hctx Hdead Hwait Hspawn.
  induction fuel as [|fuel IH]; intros m.
  - exists m, []. rewrite app_nil_r. repeat split.
  - destruct (Hdead m) as (junk & err & m1 & Hx & Htf).
    apply transport_failure_iff in Htf.
    pose proof (Exchange_loop_respawn fuel _ _ _ _ _ _ (Hctx _) Hx Htf) as Hc.
    cbv zeta in Hc.
    pose proof (Hwait (process (gov m1)) (world (env m1))) as Hw.
    destruct (Proc.Wait _ _) as [werr w1]. simpl in Hw. subst werr.
    destruct (Hspawn (process (gov m1)) w1) as [q Hq].
    destruct (Proc.Spawn _ w1) as [s w2]. simpl in Hq. subst s.
    destruct (IH (with_process q
                    (logged DEBUG
                       (Proc.String (process (gov m1)) ++ " respawned as "
                        ++ Proc.String q)
                       (observe [EvWait (process (gov m1));
                                 EvSpawn (process (gov m1))] w2
                          (logged WARN
                             (Proc.String (process (gov m1))
                              ++ " exchange error: " ++ Error err) m1)))))
      as (m' & evs' & Hrun & Htr' & Hsd & Hsp & Hu).
    destruct (exchange_trace _ _ _ _ _ Hx) as (_ & evs & Htr & Hevs).
    simpl in Htr'.
    exists m', (evs ++ [EvWait (process (gov m1)); EvSpawn (process (gov m1))]
                ++ evs').
    split; [now rewrite Hc|].
    split; [now rewrite Htr', Htr, <- !app_assoc|].
    destruct Hevs as [-> | ->]; count_events; lia.
Qed.

(** X8.  The loop has no bound of its own.  Under a context that is never
    done, against workers whose every attempt fails with a transient
    transport failure and that can always be reaped and replaced,
    [Exchange] does not exit: for every bound on the iterations
    followed it is still running, having spawned one process per
    iteration, and it has not released the mutex. *)
Theorem Exchange_respawns_without_bound ctx data :
  (forall w, Err ctx w = None) ->
  (forall m, exists junk err m1,
        exchange ctx data m = (Returned (junk, Some err), m1)
        /\ TransientTransportFailure err) ->
  (forall (p : H) (w : W), fst (Proc.Wait p w) = None) ->
  (forall (p : H) (w : W), exists q, fst (Proc.Spawn p w) = Proc.Started q) ->
  forall (fuel : nat) m,
  exists m' evs,
    Exchange fuel ctx data m = (OutOfFuel, m')
    /\ trace (env m') = trace (env m) ++ EvLock ctx :: evs
    /\ count is_send evs = fuel
    /\ count is_spawn evs = fuel
    /\ count is_unlock evs = 0
    /\ locked (mu (gov m')) = true.
Proof.
  intros Hctx Hdead Hwait Hspawn fuel m.
  destruct (Lock_cases ctx m) as [Hok | (cerr & He & _)]; cbv zeta in *;
    [|rewrite Hctx in He; discriminate].
  destruct (Exchange_loop_keeps_respawning ctx data Hctx Hdead Hwait Hspawn fuel
              (acquired ctx (Runtime.lock_wait ctx (world (env m))) m))
    as (m' & evs & Hrun & Htr & Hsd & Hsp & Hu).
  exists m', evs.
  rewrite (Exchange_runs_loop _ _ _ _ _ Hok). unfold deferred. rewrite Hrun.
  split; [reflexivity|]. simpl in Htr.
  split; [now rewrite Htr, <- app_assoc|].
  repeat split; trivial.
  destruct (Exchange_loop_events _ _ _ _ _ _ Hrun) as (_ & _ & _ & Hmu).
  now rewrite Hmu.
Qed.

(** X9.  Construction.  [Govern] calls [Spawn] on the template exactly once
    and calls nothing else.  It returns either a governor and no error
    (the governor holds the spawned process and a free mutex) or no
    governor and the Spawn error wrapped with "spawn", whose message is
    "spawn: " and the Spawn error's message, whose innermost cause is
    the Spawn error's, and which [errors.Is] matches against the same
    leaf errors. *)
Theorem Govern_spawns_once (template : H) (e : Env W H)
        (g : option (Governor H)) (err : option error) (e' : Env W H) :
  Govern template e = ((g, err), e') ->
  trace e' = trace e ++ [EvSpawn template]
  /\ ((exists p,
          Proc.Spawn template (world e) = (Proc.Started p, world e')
          /\ g = Some {| process := p; mu := {| locked := false |} |}
          /\ err = None
          /\ logs e'
             = logs e ++ [(DEBUG, (Proc.String p ++ " started successfully")%string)])
      \/ (exists serr,
             Proc.Spawn template (world e) = (Proc.Failed serr, world e')
             /\ g = None
             /\ err = Some (Wrap serr "spawn")
             /\ logs e' = logs e
             /\ Error (Wrap serr "spawn") = ("spawn: " ++ Error serr)%string
             /\ Cause (Wrap serr "spawn") = Cause serr
             /\ forall id msg,
                 Is (Wrap serr "spawn") (New id msg) = Is serr (New id msg))).
Proof.
  unfold Govern, call_Spawn, logf, with_world, emit.
  destruct (Proc.Spawn template (world e)) as [[p|serr] w]; simpl;
    intros Hg; inversion Hg; subst; simpl; (split; [reflexivity|]).
  - left. exists p. auto.
  - right. exists serr. repeat split.
Qed.

Lemma Wait_exact m :
  let w := Runtime.lock_wait Background (world (env m)) in
  let p := process (gov m) in
  Wait m
  = (Returned (fst (Proc.Wait p w)),
     released
       (match fst (Proc.Wait p w) with
        | None =>
            logged DEBUG (Proc.String p ++ " completed successfully")%string
                   (observe [EvWait p] (snd (Proc.Wait p w))
                            (acquired Background w m))
        | Some _ =>
            observe [EvWait p] (snd (Proc.Wait p w)) (acquired Background w m)
        end)).
Proof.
  cbv zeta. unfold Wait, bind at 1. rewrite Lock_Background.
  destruct (Proc.Wait (process (gov m))
              (Runtime.lock_wait Background (world (env m))))
    as [[err|] w1] eqn:Hw; simpl;
    apply deferred_unlock_returned;
    unfold bind, get_process, lift, call_Wait, logf, with_world, emit; simpl;
    rewrite Hw; reflexivity.
Qed.

(** X10.  Teardown.  [Kill] followed by [Wait] kills and then reaps the same
    process, the one the governor held before: [Kill] does not replace
    the handle.  Each takes and releases the mutex under the background
    context; [Wait] returns the error of the process's [Wait] as it is
    and logs the completion only when there is none. *)
Theorem Kill_then_Wait_reaps_the_killed_process m :
  let p := process (gov m) in
  let w1 := Proc.Kill p (Runtime.lock_wait Background (world (env m))) in
  let reaped := Proc.Wait p (Runtime.lock_wait Background w1) in
  exists m1 m2,
    Kill m = (Returned tt, m1)
    /\ Wait m1 = (Returned (fst reaped), m2)
    /\ process (gov m2) = p
    /\ locked (mu (gov m2)) = false
    /\ world (env m2) = snd reaped
    /\ trace (env m2)
       = trace (env m)
         ++ [EvLock Background; EvKill p; EvUnlock;
             EvLock Background; EvWait p; EvUnlock]
    /\ logs (env m2)
       = logs (env m)
         ++ match fst reaped with
            | None => [(DEBUG, (Proc.String p ++ " completed successfully")%string)]
            | Some _ => []
            end.
Proof.
  intros p w1 reaped.
  pose proof (Kill_cases m) as Hk. cbv zeta in Hk. fold p in Hk. fold w1 in Hk.
  set (m1 := released (observe [EvKill p] w1
               (acquired Background
                  (Runtime.lock_wait Background (world (env m))) m))) in *.
  exists m1, (snd (Wait m1)). split; [exact Hk|].
  rewrite Wait_exact. subst m1. cbv zeta. simpl. fold p. fold w1. fold reaped.
  destruct (fst reaped) as [werr|]; simpl;
    rewrite <- ?app_assoc, ?app_nil_r; repeat split.
Qed.

End Lifecycle.

(** ** Wrapped errors and the classification *)

Lemma string_append_assoc (a b c : string) :
  ((a ++ b) ++ c)%string = (a ++ (b ++ c))%string.
Proof. induction a as [|x a IH]; simpl; [reflexivity | now rewrite IH]. Qed.

Lemma Occurs_after_prefix (substr s pre : string) :
  Strings.Occurs substr s -> Strings.Occurs substr (pre ++ s)%string.
Proof.
  intros (before & after & ->). exists (pre ++ before)%string, after.
  now rewrite string_append_assoc.
Qed.

Lemma Occurs_before_suffix (substr s post : string) :
  Strings.Occurs substr s -> Strings.Occurs substr (s ++ post)%string.
Proof.
  intros (before & after & ->). exists before, (after ++ post)%string.
  now rewrite !string_append_assoc.
Qed.

(** X11.  Wrapping does not hide a dead channel.  An error that is a
    transient transport failure stays one when it is wrapped with
    [errors.Wrap], whatever the label: a process that labels its
    transport errors is still respawned. *)
Theorem Wrap_keeps_transport_failure (err : error) (label : string) :
  TransientTransportFailure err ->
  TransientTransportFailure (Wrap err label)
  /\ transport_failure (Wrap err label) = true.
Proof.
  intros Ht.
  assert (Hw : TransientTransportFailure (Wrap err label)).
  { unfold TransientTransportFailure in *.
    change (Error (Wrap err label))
      with (label ++ (": " ++ Error err))%string.
    destruct Ht as [Hin | [Hc | Hp]].
    - left. now apply (Matches_tail (Wrap err label) err).
    - right. left. now do 2 apply Occurs_after_prefix.
    - right. right. now do 2 apply Occurs_after_prefix. }
  split; [exact Hw | now apply transport_failure_iff].
Qed.

(** X12.  The classification reads the text.  An error wrapped with a label
    that contains "broken pipe" or "file already closed" is a transient
    transport failure whatever its cause is, so [Exchange] respawns on
    it. *)
Theorem label_text_alone_is_a_transport_failure (cause : error) (label : string) :
  Strings.Occurs "broken pipe" label \/ Strings.Occurs "file already closed" label ->
  TransientTransportFailure (Wrap cause label)
  /\ transport_failure (Wrap cause label) = true.
Proof.
  intros Hl.
  assert (Hw : TransientTransportFailure (Wrap cause label)).
  { unfold TransientTransportFailure.
    change (Error (Wrap cause label))
      with (label ++ (": " ++ Error cause))%string.
    destruct Hl as [Hp | Hc].
    - right. right. now apply Occurs_before_suffix.
    - right. left. now apply Occurs_before_suffix. }
  split; [exact Hw | now apply transport_failure_iff].
Qed.

(** ** More concrete runs *)

Section More_runs.

Import Fake.

Lemma Wrap_keeps_transport_failure_witness :
  TransientTransportFailure (Chain "write |1: broken pipe" EPIPE)
  /\ transport_failure (Wrap (Chain "write |1: broken pipe" EPIPE) "send") = true.
Proof.
  assert (Ht : TransientTransportFailure (Chain "write |1: broken pipe" EPIPE))
    by (apply transport_failure_iff; reflexivity).
  split; [exact Ht|].
  exact (proj2 (Wrap_keeps_transport_failure _ "send" Ht)).
Defined.

Lemma label_text_alone_is_a_transport_failure_witness :
  Strings.Occurs "broken pipe" "report broken pipe"
  /\ ~ TransientTransportFailure ErrBadRequest
  /\ transport_failure (Wrap ErrBadRequest "report broken pipe") = true.
Proof.
  assert (Ho : Strings.Occurs "broken pipe" "report broken pipe")
    by (exists "report ", ""; reflexivity).
  split; [exact Ho|].
  split; [apply transport_failure_false_iff; reflexivity|].
  exact (proj2 (label_text_alone_is_a_transport_failure ErrBadRequest
                  "report broken pipe" (or_introl Ho))).
Defined.

Lemma Exchange_reaps_before_every_Spawn_witness :
  exists o m',
    Exchange_on recover 2 (Derived 0) Q after_Govern = (o, m')
    /\ count is_spawn (trace (env m')) = 2
    /\ exists evs,
        trace (env m') = trace (env after_Govern) ++ evs
        /\ forall before after p,
            evs = before ++ EvSpawn p :: after ->
            exists earlier, before = earlier ++ [EvWait p].
Proof.
  pose (r := Exchange_on recover 2 (Derived 0) Q after_Govern).
  exists (fst r), (snd r). split; [reflexivity|]. split; [reflexivity|].
  exact (Exchange_reaps_before_every_Spawn
           (P := fake_process recover) (R := fake_runtime recover)
           2 (Derived 0) Q after_Govern (fst r) (snd r) eq_refl).
Defined.

Lemma Exchange_call_budget_witness :
  exists o m',
    Exchange_on recover 2 (Derived 0) Q after_Govern = (o, m')
    /\ exists evs,
        trace (env m') = trace (env after_Govern) ++ evs
        /\ count is_kill evs = 0
        /\ count is_lock evs <= 1
        /\ count is_receive evs <= count is_send evs
        /\ count is_send evs <= count is_spawn evs + 1
        /\ count is_spawn evs <= count is_wait evs
        /\ count is_wait evs <= count is_send evs.
Proof.
  pose (r := Exchange_on recover 2 (Derived 0) Q after_Govern).
  exists (fst r), (snd r). split; [reflexivity|].
  exact (Exchange_call_budget
           (P := fake_process recover) (R := fake_runtime recover)
           2 (Derived 0) Q after_Govern (fst r) (snd r) eq_refl).
Defined.

Lemma Exchange_answer_is_current_handles_reply_witness :
  exists m',
    Exchange_on recover 2 (Derived 0) Q after_Govern = (Returned (R2, None), m')
    /\ process (gov m') = 2
    /\ exists last w1 evs,
        trace (env last) = trace (env after_Govern) ++ EvLock (Derived 0) :: evs
        /\ process (gov last) = process (gov m')
        /\ Err_on recover (Derived 0) (world (env last)) = None
        /\ fake_Send recover (process (gov m')) (Derived 0) Q (world (env last))
           = (None, w1)
        /\ fake_Receive recover (process (gov m')) (Derived 0) w1
           = ((R2, None), world (env m'))
        /\ trace (env m')
           = trace (env last)
             ++ [EvSend (process (gov m')) (Derived 0) Q;
                 EvReceive (process (gov m')) (Derived 0); EvUnlock].
Proof.
  pose (r := Exchange_on recover 2 (Derived 0) Q after_Govern).
  exists (snd r). split; [reflexivity|]. split; [reflexivity|].
  exact (Exchange_answer_is_current_handles_reply
           (P := fake_process recover) (R := fake_runtime recover)
           2 (Derived 0) Q after_Govern R2 (snd r) eq_refl).
Defined.

Lemma Exchange_error_has_no_bytes_witness :
  exists m1 b m',
    exchange_on partial_answer (Derived 0) Q (after_Lock (Derived 0))
    = (Returned (R1, Some ErrBadRequest), m1)
    /\ Exchange_on partial_answer 1 (Derived 0) Q after_Govern
       = (Returned (b, Some ErrBadRequest), m')
    /\ b = nil_bytes
    /\ ExchangeDirect_on partial_answer (Derived 0) Q after_Govern
       = (Returned (R1, Some ErrBadRequest), released m1).
Proof.
  pose (r := Exchange_on partial_answer 1 (Derived 0) Q after_Govern).
  pose (b := match fst r with Returned (b, _) => b | _ => R1 end).
  exists (snd (exchange_on partial_answer (Derived 0) Q (after_Lock (Derived 0)))),
    b, (snd r).
  split; [reflexivity|]. split; [reflexivity|]. split; [|reflexivity].
  exact (Exchange_error_has_no_bytes
           (P := fake_process partial_answer) (R := fake_runtime partial_answer)
           1 (Derived 0) Q after_Govern b ErrBadRequest (snd r) eq_refl).
Defined.

Lemma Exchange_error_origin_witness :
  exists m',
    Exchange_on respawn_fails 1 (Derived 0) Q after_Govern
    = (Returned (nil_bytes, Some (Wrap ErrForkFailed "respawn")), m')
    /\ ((exists w, Err_on respawn_fails (Derived 0) w
                   = Some (Wrap ErrForkFailed "respawn"))
        \/ (exists p w, fst (fake_Wait respawn_fails p w)
                        = Some (Wrap ErrForkFailed "respawn"))
        \/ (exists p w serr,
               fst (fake_Spawn respawn_fails p w) = Proc.Failed serr
               /\ Wrap ErrForkFailed "respawn" = Wrap serr "respawn")
        \/ (~ TransientTransportFailure (Wrap ErrForkFailed "respawn")
            /\ exists p w,
                fst (fake_Send respawn_fails p (Derived 0) Q w)
                = Some (Wrap ErrForkFailed "respawn")
                \/ snd (fst (fake_Receive respawn_fails p (Derived 0) w))
                   = Some (Wrap ErrForkFailed "respawn"))).
Proof.
  pose (r := Exchange_on respawn_fails 1 (Derived 0) Q after_Govern).
  exists (snd r). split; [reflexivity|].
  exact (Exchange_error_origin
           (P := fake_process respawn_fails) (R := fake_runtime respawn_fails)
           1 (Derived 0) Q after_Govern nil_bytes
           (Wrap ErrForkFailed "respawn") (snd r) eq_refl).
Defined.

Lemma Exchange_done_context_never_reaches_process_witness :
  Err_on expiring (Derived 0) (world (env after_Govern)) = Some DeadlineExceeded
  /\ exists m',
      Exchange_on expiring 1 (Derived 0) Q after_Govern
      = (Returned (nil_bytes, Some DeadlineExceeded), m')
      /\ process (gov m') = 1
      /\ world (env m') = world (env after_Govern)
      /\ (trace (env m') = trace (env after_Govern)
          \/ trace (env m')
             = trace (env after_Govern) ++ [EvLock (Derived 0); EvUnlock]).
Proof.
  split; [reflexivity|].
  exact (Exchange_done_context_never_reaches_process
           (P := fake_process expiring) (R := fake_runtime expiring)
           0 (Derived 0) Q after_Govern DeadlineExceeded eq_refl).
Defined.

Lemma Exchange_agrees_with_ExchangeDirect_witness :
  Lock_on healthy (Derived 0) after_Govern
  = (Returned (unlock, None), after_Lock (Derived 0))
  /\ Exchange_on healthy 1 (Derived 0) Q after_Govern
     = ExchangeDirect_on healthy (Derived 0) Q after_Govern
  /\ fst (ExchangeDirect_on healthy (Derived 0) Q after_Govern)
     = Returned (R1, None).
Proof.
  split; [reflexivity|].
  destruct (proj2 (Exchange_agrees_with_ExchangeDirect
                     (P := fake_process healthy) (R := fake_runtime healthy)
                     0 (Derived 0) Q after_Govern)
                  (after_Lock (Derived 0)) R1
                  (snd (exchange_on healthy (Derived 0) Q (after_Lock (Derived 0))))
                  eq_refl eq_refl eq_refl) as [Hsame Hdirect].
  split; [exact Hsame|].
  exact (f_equal fst Hdirect).
Defined.

Lemma Exchange_respawns_without_bound_witness :
  exists m' evs,
    Exchange_on always_dead 7 Background Q after_Govern = (OutOfFuel, m')
    /\ trace (env m') = trace (env after_Govern) ++ EvLock Background :: evs
    /\ count is_send evs = 7
    /\ count is_spawn evs = 7
    /\ count is_unlock evs = 0
    /\ locked (mu (gov m')) = true.
Proof.
  apply (Exchange_respawns_without_bound
           (P := fake_process always_dead) (R := fake_runtime always_dead)
           Background Q).
  - intros w. reflexivity.
  - intros m. exists nil_bytes, io_EOF. eexists. split; [reflexivity|].
    apply transport_failure_iff. reflexivity.
  - intros p w. reflexivity.
  - intros p w. eexists. reflexivity.
Defined.

Lemma Govern_spawns_once_witness :
  Govern (P := fake_process never_starts) 0 start
  = ((None, Some (Wrap ErrForkFailed "spawn")),
     {| world := boot; trace := [EvSpawn 0]; logs := [] |})
  /\ Error (Wrap ErrForkFailed "spawn")
     = "spawn: fork/exec: resource temporarily unavailable"
  /\ Is (Wrap ErrForkFailed "spawn") ErrForkFailed = true.
Proof.
  destruct (Govern_spawns_once (P := fake_process never_starts) 0 start
              None (Some (Wrap ErrForkFailed "spawn"))
              {| world := boot; trace := [EvSpawn 0]; logs := [] |} eq_refl)
    as (_ & [(p & _ & Hg & _) | (serr & _ & _ & Herr & _ & Hmsg & _ & His)]).
  - discriminate Hg.
  - inversion Herr; subst serr.
    split; [reflexivity|]. split; [exact Hmsg|].
    exact (eq_trans (His 9 "fork/exec: resource temporarily unavailable")
                    eq_refl).
Defined.

End More_runs.

(** ** Event enrichment *)

Section Event_enrichment.

Import Events.

Lemma store_eq (m : fields) (k : string) (v : value) : store m k v k = Some v.
Proof. unfold store. now rewrite String.eqb_refl. Qed.

Lemma store_ne (m : fields) (k k' : string) (v : value) :
  k <> k' -> store m k v k' = m k'.
Proof.
  intros Hne. unfold store.
  destruct (String.eqb k k') eqn:Heq; [|reflexivity].
  apply String.eqb_eq in Heq. contradiction.
Qed.

Lemma is_empty_string_iff (v : value) :
  is_empty_string v = true <-> v = VString "".
Proof.
  destruct v as [|s|m|tag]; simpl; split; try discriminate.
  - intros Heq. apply String.eqb_eq in Heq. now subst.
  - intros Heq. inversion Heq. reflexivity.
Qed.

(** X13.  When the enrichment panics.  [EnrichWithEventId] and
    [EnrichWithCollection] panic exactly when the object is the nil
    map, or when it holds a nil map under "eventn_ctx"; in every other
    case they return. *)
Theorem Enrich_panics_iff (object : option fields) (s : string) :
  let nil_somewhere :=
    object = None
    \/ exists o, object = Some o /\ o EventnKey = Some (VMap None) in
  (EnrichWithEventId object s = None <-> nil_somewhere)
  /\ (EnrichWithCollection object s = None <-> nil_somewhere).
Proof.
  cbv zeta. unfold EnrichWithEventId, EnrichWithCollection.
  destruct object as [o|]; [|split; split; auto].
  destruct (o EventnKey) as [[|t|[eventn|]|tag]|] eqn:Hctx;
    (split; (split; [intros Hd | intros [Hnil | (o' & Ho & Hm)]]));
    try discriminate;
    try (inversion Ho; subst o'; congruence);
    try reflexivity;
    try (right; exists o; split; [reflexivity | exact Hctx]).
  - destruct (eventn EventIdKey) as [val|]; [|discriminate].
    destruct (is_empty_string val); discriminate.
  - destruct (eventn collectionIdKey); discriminate.
Qed.

(** X14.  The event id that is there stays.  When the object holds a map
    under "eventn_ctx", [EnrichWithEventId] writes the id into it only
    if "event_id" is missing there or is the empty string; any other
    value, of any type, is kept and the object is left as it is. *)
Theorem EnrichWithEventId_first_id_wins
        (o eventn : fields) (eventId : string) :
  o EventnKey = Some (VMap (Some eventn)) ->
  match eventn EventIdKey with
  | Some val =>
      if is_empty_string val
      then EnrichWithEventId (Some o) eventId
           = Some (store o EventnKey
                     (VMap (Some (store eventn EventIdKey (VString eventId)))))
      else EnrichWithEventId (Some o) eventId = Some o
  | None =>
      EnrichWithEventId (Some o) eventId
      = Some (store o EventnKey
                (VMap (Some (store eventn EventIdKey (VString eventId)))))
  end
  /\ (forall val,
         eventn EventIdKey = Some val -> val <> VString "" ->
         EnrichWithEventId (Some o) eventId = Some o).
Proof.
  intros Hctx. unfold EnrichWithEventId. rewrite Hctx. split.
  - destruct (eventn EventIdKey) as [val|]; [|reflexivity].
    destruct (is_empty_string val); reflexivity.
  - intros val Hval Hne. rewrite Hval.
    destruct (is_empty_string val) eqn:He; [|reflexivity].
    apply is_empty_string_iff in He. contradiction.
Qed.

(** X15.  The collection that is there stays, whatever it is.  When the
    object holds a map under "eventn_ctx" with an entry
    "collection_id", [EnrichWithCollection] leaves the object as it is,
    also when that entry is the empty string or nil (where
    [EnrichWithEventId] would overwrite an empty "event_id"). *)
Theorem EnrichWithCollection_never_overwrites
        (o eventn : fields) (val : value) (collection : string) :
  o EventnKey = Some (VMap (Some eventn)) ->
  eventn collectionIdKey = Some val ->
  EnrichWithCollection (Some o) collection = Some o.
Proof.
  intros Hctx Hval. unfold EnrichWithCollection. now rewrite Hctx, Hval.
Qed.

(** X17.  First id wins, last id wins.  After a call with a non-empty id on
    an object whose "eventn_ctx" is missing or a map, a second call,
    with any id, leaves the object as the first call left it.  On an
    object whose "eventn_ctx" is anything else, the id goes to the flat
    key "eventn_ctx_event_id", and there the second call overwrites the
    first. *)
Theorem EnrichWithEventId_twice (o r : fields) (id1 id2 : string) :
  EnrichWithEventId (Some o) id1 = Some r ->
  match o EventnKey with
  | None | Some (VMap _) =>
      id1 <> "" -> EnrichWithEventId (Some r) id2 = Some r
  | Some _ =>
      r EventnCtxEventId = Some (VString id1)
      /\ exists r',
          EnrichWithEventId (Some r) id2 = Some r'
          /\ r' EventnCtxEventId = Some (VString id2)
  end.
Proof.
  assert (Hkeys : EventnCtxEventId <> EventnKey) by discriminate.
  assert (Hwritten :
            forall (m eventn : fields),
              id1 <> "" ->
              EnrichWithEventId
                (Some (store m EventnKey
                         (VMap (Some (store eventn EventIdKey (VString id1))))))
                id2
              = Some (store m EventnKey
                        (VMap (Some (store eventn EventIdKey (VString id1)))))).
  { intros m eventn Hne. unfold EnrichWithEventId.
    rewrite store_eq. rewrite store_eq. simpl.
    apply String.eqb_neq in Hne. now rewrite Hne. }
  assert (Hflat :
            forall v,
              o EventnKey = Some v ->
              (forall m, v <> VMap m) ->
              EnrichWithEventId (Some (store o EventnCtxEventId (VString id1))) id2
              = Some (store (store o EventnCtxEventId (VString id1))
                            EventnCtxEventId (VString id2))).
  { intros v Hv Hnot. unfold EnrichWithEventId.
    rewrite store_ne by exact Hkeys. rewrite Hv.
    destruct v as [|t|m|tag]; try reflexivity.
    now contradiction (Hnot m). }
  unfold EnrichWithEventId at 1.
  destruct (o EventnKey) as [[|t|[eventn|]|tag]|] eqn:Hctx; intros Hr;
    try discriminate Hr.
  - injection Hr as <-. split; [apply store_eq|].
    eexists. split; [apply (Hflat VNil); [reflexivity | discriminate]|].
    apply store_eq.
  - injection Hr as <-. split; [apply store_eq|].
    eexists. split; [apply (Hflat (VString t)); [reflexivity | discriminate]|].
    apply store_eq.
  - intros Hne.
    destruct (eventn EventIdKey) as [val|] eqn:Hval.
    + destruct (is_empty_string val) eqn:He; injection Hr as <-.
      * now apply Hwritten.
      * unfold EnrichWithEventId. now rewrite Hctx, Hval, He.
    + injection Hr as <-. now apply Hwritten.
  - injection Hr as <-. split; [apply store_eq|].
    eexists. split; [apply (Hflat (VOther tag)); [reflexivity | discriminate]|].
    apply store_eq.
  - intros Hne. injection Hr as <-. now apply Hwritten.
Qed.

Lemma store_store_swap (m : fields) (k1 k2 : string) (v1 v2 : value) :
  k1 <> k2 ->
  forall k, store (store m k1 v1) k2 v2 k = store (store m k2 v2) k1 v1 k.
Proof.
  intros Hne k. unfold store.
  destruct (String.eqb k2 k) eqn:H2, (String.eqb k1 k) eqn:H1; try reflexivity.
  apply String.eqb_eq in H1, H2. congruence.
Qed.

Lemma same_entries_refl (a : fields) : same_entries a a.
Proof. intros k. now left. Qed.

Lemma same_entries_at (m : fields) (k : string) (ea eb : fields) :
  (forall k', ea k' = eb k') ->
  same_entries (store m k (VMap (Some ea))) (store m k (VMap (Some eb))).
Proof.
  intros Heq k'. unfold store.
  destruct (String.eqb k k'); [right; eauto | now left].
Qed.

Lemma store_shadow (m : fields) (k : string) (v1 v2 : value) :
  forall k', store (store m k v1) k v2 k' = store m k v2 k'.
Proof. intros k'. unfold store. now destruct (String.eqb k k'). Qed.

(** X18.  The two enrichments commute.  Applied to the same object in either
    order, [EnrichWithEventId] and [EnrichWithCollection] both panic or
    both return, and then the two objects hold the same entries. *)
Theorem Enrich_commute (object : option fields) (eventId collection : string) :
  match EnrichWithEventId object eventId, EnrichWithCollection object collection with
  | Some a, Some b =>
      exists a' b',
        EnrichWithCollection (Some a) collection = Some a'
        /\ EnrichWithEventId (Some b) eventId = Some b'
        /\ same_entries a' b'
  | None, None => True
  | _, _ => False
  end.
Proof.
  assert (HEC : EventIdKey <> collectionIdKey) by discriminate.
  assert (HCE : collectionIdKey <> EventIdKey) by discriminate.
  assert (HK1 : EventnCtxEventId <> EventnKey) by discriminate.
  assert (HK2 : (EventnKey ++ "_" ++ collectionIdKey)%string <> EventnKey)
    by discriminate.
  assert (HK3 : EventnCtxEventId <> (EventnKey ++ "_" ++ collectionIdKey)%string)
    by discriminate.
  destruct object as [o|]; [|exact I].
  unfold EnrichWithEventId at 1, EnrichWithCollection at 1.
  destruct (o EventnKey) as [[|t|[eventn|]|tag]|] eqn:Hctx.
  - (* nil interface under eventn_ctx: both use the flat keys *)
    do 2 eexists. unfold EnrichWithCollection, EnrichWithEventId.
    rewrite !store_ne, Hctx by assumption.
    split; [reflexivity|]. split; [reflexivity|].
    intros k. left. now apply store_store_swap.
  - do 2 eexists. unfold EnrichWithCollection, EnrichWithEventId.
    rewrite !store_ne, Hctx by assumption.
    split; [reflexivity|]. split; [reflexivity|].
    intros k. left. now apply store_store_swap.
  - (* a map under eventn_ctx *)
    destruct (eventn collectionIdKey) as [c|] eqn:Hc;
      destruct (eventn EventIdKey) as [val|] eqn:Hv;
      try destruct (is_empty_string val) eqn:He;
      do 2 eexists;
      unfold EnrichWithCollection, EnrichWithEventId;
      rewrite ?store_eq, ?Hctx, ?store_ne, ?Hc, ?Hv, ?He by assumption;
      (split; [reflexivity|]); (split; [reflexivity|]);
      try apply same_entries_refl.
    + intros k. unfold store. destruct (String.eqb EventnKey k); [|now left].
      right. do 2 eexists. split; [reflexivity|]. split; [reflexivity|].
      intros k'. now apply store_store_swap.
    + intros k. unfold store. destruct (String.eqb EventnKey k); [|now left].
      right. do 2 eexists. split; [reflexivity|]. split; [reflexivity|].
      intros k'. now apply store_store_swap.
  - (* a nil map under eventn_ctx: both panic *)
    unfold EnrichWithCollection. rewrite Hctx. exact I.
  - do 2 eexists. unfold EnrichWithCollection, EnrichWithEventId.
    rewrite !store_ne, Hctx by assumption.
    split; [reflexivity|]. split; [reflexivity|].
    intros k. left. now apply store_store_swap.
  - (* no eventn_ctx yet: the first call creates it, the second fills it *)
    do 2 eexists. unfold EnrichWithCollection, EnrichWithEventId.
    rewrite !store_eq.
    rewrite (store_ne empty EventIdKey collectionIdKey) by assumption.
    rewrite (store_ne empty collectionIdKey EventIdKey) by assumption.
    unfold empty at 1 3.
    split; [reflexivity|]. split; [reflexivity|].
    intros k. unfold store. destruct (String.eqb EventnKey k); [|now left].
    right. do 2 eexists. split; [reflexivity|]. split; [reflexivity|].
    intros k'. now apply store_store_swap.
Qed.

Lemma EnrichWithEventId_first_id_wins_witness :
  enriched_event "abc" "c1" EventnKey
  = Some (VMap (Some (store (store (store empty "url" (VString "/"))
                                   EventIdKey (VString "abc"))
                            collectionIdKey (VString "c1"))))
  /\ EnrichWithEventId (Some (enriched_event "abc" "c1")) "xyz"
     = Some (enriched_event "abc" "c1").
Proof.
  split; [reflexivity|].
  apply (proj2 (EnrichWithEventId_first_id_wins
                  (enriched_event "abc" "c1") _ "xyz" eq_refl)
               (VString "abc")); [reflexivity | discriminate].
Defined.

Lemma EnrichWithCollection_never_overwrites_witness :
  enriched_event "abc" "" EventnKey
  = Some (VMap (Some (store (store (store empty "url" (VString "/"))
                                   EventIdKey (VString "abc"))
                            collectionIdKey (VString ""))))
  /\ EnrichWithCollection (Some (enriched_event "abc" "")) "c2"
     = Some (enriched_event "abc" "").
Proof.
  split; [reflexivity|].
  exact (EnrichWithCollection_never_overwrites
           (enriched_event "abc" "") _ (VString "") "c2" eq_refl eq_refl).
Defined.

Lemma EnrichWithEventId_twice_witness :
  exists r,
    EnrichWithEventId (Some sample_event) "abc" = Some r
    /\ EnrichWithEventId (Some r) "xyz" = Some r
    /\ exists r1 r2,
        EnrichWithEventId (Some flat_event) "abc" = Some r1
        /\ EnrichWithEventId (Some r1) "xyz" = Some r2
        /\ r2 EventnCtxEventId = Some (VString "xyz").
Proof.
  eexists. split; [reflexivity|]. split.
  - apply (EnrichWithEventId_twice sample_event _ "abc" "xyz" eq_refl).
    discriminate.
  - eexists. eexists. split; [reflexivity|]. split; reflexivity.
Defined.

End Event_enrichment.

(** ** Event enrichment over shared maps *)

Section Shared_event_enrichment.

Import SharedEvents.

Lemma shared_store_ne (m : fields) (k k' : string) (v : value) :
  k <> k' -> store m k v k' = m k'.
Proof.
  intros Hne. unfold store.
  destruct (String.eqb k k') eqn:Heq; [|reflexivity].
  apply String.eqb_eq in Heq. contradiction.
Qed.

Lemma shared_store_eq (m : fields) (k : string) (v : value) :
  store m k v k = Some v.
Proof. unfold store. now rewrite String.eqb_refl. Qed.

(** A write that returns changed one map of the store at one key. *)
Lemma write_spec (h h' : heap) (a : ref) (k : string) (v : value) :
  write h (Some a) k v = Some h' ->
  exists f,
    maps h a = Some f
    /\ maps h' a = Some (store f k v)
    /\ (forall a', a' <> a -> maps h' a' = maps h a')
    /\ next h' = next h.
Proof.
  unfold write. destruct (maps h a) as [f|] eqn:Hf; [|discriminate].
  intros Hw. injection Hw as <-. exists f. simpl.
  rewrite Nat.eqb_refl. repeat split.
  intros a' Hne. apply Nat.eqb_neq in Hne. now rewrite Hne.
Qed.

Lemma write_one_write (h h' : heap) (a : ref) (k : string) (v : value) :
  write h (Some a) k v = Some h' -> one_write h h' a k.
Proof.
  intros Hw. destruct (write_spec _ _ _ _ _ Hw) as (f & Hf & Hf' & Hother & Hnext).
  unfold one_write, lookup. rewrite Hf, Hf', Hnext. split; [|split].
  - intros a' _ Hne. now apply Hother.
  - intros k' Hk. apply shared_store_ne. now apply not_eq_sym.
  - apply le_n.
Qed.

Lemma one_write_refl (h : heap) (a : ref) (k : string) : one_write h h a k.
Proof. unfold one_write. auto. Qed.

(** A write, after a map literal, to a map that existed before. *)
Lemma make_write_spec (h h' : heap) (f : fields) (a : ref) (k : string)
      (v : value) :
  a < next h ->
  write (snd (make h f)) (Some a) k v = Some h' ->
  one_write h h' a k
  /\ lookup h' (Some a) k = Some v
  /\ maps h' (next h) = Some f.
Proof.
  intros Ha Hw.
  destruct (write_spec _ _ _ _ _ Hw) as (g & Hg & Hg' & Hother & Hnext).
  assert (Hold : forall a', a' < next h -> maps (snd (make h f)) a' = maps h a').
  { intros a' Hlt. simpl.
    destruct (Nat.eqb a' (next h)) eqn:He; [|reflexivity].
    apply Nat.eqb_eq in He. lia. }
  assert (Hnew : maps (snd (make h f)) (next h) = Some f)
    by (simpl; now rewrite Nat.eqb_refl).
  rewrite (Hold a Ha) in Hg. simpl in Hnext.
  split; [|split].
  - unfold one_write, lookup. rewrite Hg, Hg', Hnext. split; [|split].
    + intros a' Hlt Hne. rewrite (Hother a' Hne). now apply Hold.
    + intros k' Hk. apply shared_store_ne. now apply not_eq_sym.
    + lia.
  - unfold lookup. rewrite Hg'. apply shared_store_eq.
  - rewrite Hother by lia. exact Hnew.
Qed.

Lemma refers_below (h : heap) (a : ref) :
  well_formed h -> refers h (Some a) -> a < next h.
Proof.
  intros Hwf Hr. destruct (Nat.lt_ge_cases a (next h)) as [Hlt|Hge]; [exact Hlt|].
  simpl in Hr. now rewrite (Hwf a Hge) in Hr.
Qed.

Lemma write_refers (h h' : heap) (m : option ref) (k : string) (v : value) :
  write h m k v = Some h' -> exists a, m = Some a /\ refers h (Some a).
Proof.
  unfold write. destruct m as [a|]; [|discriminate].
  destruct (maps h a) eqn:Hf; [|discriminate].
  intros _. exists a. split; [reflexivity|]. simpl. now rewrite Hf.
Qed.

(** X16.  What the enrichment writes.  On a well-formed store, a call
    of [EnrichWithEventId] or [EnrichWithCollection] that returns has
    made at most one write to the maps that existed: the entry
    "eventn_ctx" of the object when it was missing (it now holds a map
    made by the call), or the one key the call is about in the map held
    under "eventn_ctx", or the flat fallback key of the object.  Every
    other map, and every other key of that map, is as it was, however
    the maps are shared. *)
Theorem Enrich_writes_one_entry (h h' : heap) (object : option ref) (s : string) :
  well_formed h ->
  refers h object ->
  (EnrichWithEventId h object s = Some h' ->
   exists a k,
     one_write h h' a k
     /\ ((object = Some a /\ k = Events.EventnKey
          /\ lookup h object Events.EventnKey = None
          /\ lookup h' object Events.EventnKey = Some (VMap (Some (next h)))
          /\ maps h' (next h)
             = Some (store empty Events.EventIdKey (VString s)))
         \/ (lookup h object Events.EventnKey = Some (VMap (Some a))
             /\ k = Events.EventIdKey)
         \/ (object = Some a /\ k = Events.EventnCtxEventId
             /\ exists v, lookup h object Events.EventnKey = Some v
                          /\ forall r, v <> VMap r)))
  /\ (EnrichWithCollection h object s = Some h' ->
      exists a k,
        one_write h h' a k
        /\ ((object = Some a /\ k = Events.EventnKey
             /\ lookup h object Events.EventnKey = None
             /\ lookup h' object Events.EventnKey = Some (VMap (Some (next h)))
             /\ maps h' (next h)
                = Some (store empty Events.collectionIdKey (VString s)))
            \/ (lookup h object Events.EventnKey = Some (VMap (Some a))
                /\ k = Events.collectionIdKey)
            \/ (object = Some a
                /\ k = (Events.EventnKey ++ "_" ++ Events.collectionIdKey)%string
                /\ exists v, lookup h object Events.EventnKey = Some v
                             /\ forall r, v <> VMap r))).
Proof.
  intros Hwf Hobj. split.
  - unfold EnrichWithEventId.
    destruct (lookup h object Events.EventnKey) as [[|t|eventn|tag]|] eqn:Hctx;
      intros Hr.
    + destruct (write_refers _ _ _ _ _ Hr) as (a & -> & _).
      exists a, Events.EventnCtxEventId.
      split; [now apply write_one_write in Hr|].
      right. right. repeat split. exists VNil. split; [reflexivity | discriminate].
    + destruct (write_refers _ _ _ _ _ Hr) as (a & -> & _).
      exists a, Events.EventnCtxEventId.
      split; [now apply write_one_write in Hr|].
      right. right. repeat split.
      exists (VString t). split; [reflexivity | discriminate].
    + assert (Hcases :
                write h eventn Events.EventIdKey (VString s) = Some h'
                \/ (h' = h /\ exists a, eventn = Some a)).
      { destruct (lookup h eventn Events.EventIdKey) as [val|] eqn:Hv; [|now left].
        destruct (is_empty_string val); [now left|].
        right. injection Hr as <-. split; [reflexivity|].
        destruct eventn as [a|]; [eauto | discriminate Hv]. }
      destruct Hcases as [Hw | (-> & a & ->)].
      * destruct (write_refers _ _ _ _ _ Hw) as (a & -> & _).
        exists a, Events.EventIdKey.
        split; [now apply write_one_write in Hw|]. right. left. auto.
      * exists a, Events.EventIdKey.
        split; [apply one_write_refl|]. right. left. auto.
    + destruct (write_refers _ _ _ _ _ Hr) as (a & -> & _).
      exists a, Events.EventnCtxEventId.
      split; [now apply write_one_write in Hr|].
      right. right. repeat split.
      exists (VOther tag). split; [reflexivity | discriminate].
    + simpl in Hr.
      destruct (write_refers _ _ _ _ _ Hr) as (a & -> & _).
      pose proof (refers_below h a Hwf Hobj) as Ha.
      destruct (make_write_spec _ _ _ _ _ _ Ha Hr) as (Hone & Hl & Hm).
      exists a, Events.EventnKey. split; [exact Hone|]. left. auto.
  - unfold EnrichWithCollection.
    destruct (lookup h object Events.EventnKey) as [[|t|eventn|tag]|] eqn:Hctx;
      intros Hr.
    + destruct (write_refers _ _ _ _ _ Hr) as (a & -> & _).
      exists a, (Events.EventnKey ++ "_" ++ Events.collectionIdKey)%string.
      split; [now apply write_one_write in Hr|].
      right. right. repeat split. exists VNil. split; [reflexivity | discriminate].
    + destruct (write_refers _ _ _ _ _ Hr) as (a & -> & _).
      exists a, (Events.EventnKey ++ "_" ++ Events.collectionIdKey)%string.
      split; [now apply write_one_write in Hr|].
      right. right. repeat split.
      exists (VString t). split; [reflexivity | discriminate].
    + assert (Hcases :
                write h eventn Events.collectionIdKey (VString s) = Some h'
                \/ (h' = h /\ exists a, eventn = Some a)).
      { destruct (lookup h eventn Events.collectionIdKey) as [val|] eqn:Hv;
          [|now left].
        right. injection Hr as <-. split; [reflexivity|].
        destruct eventn as [a|]; [eauto | discriminate Hv]. }
      destruct Hcases as [Hw | (-> & a & ->)].
      * destruct (write_refers _ _ _ _ _ Hw) as (a & -> & _).
        exists a, Events.collectionIdKey.
        split; [now apply write_one_write in Hw|]. right. left. auto.
      * exists a, Events.collectionIdKey.
        split; [apply one_write_refl|]. right. left. auto.
    + destruct (write_refers _ _ _ _ _ Hr) as (a & -> & _).
      exists a, (Events.EventnKey ++ "_" ++ Events.collectionIdKey)%string.
      split; [now apply write_one_write in Hr|].
      right. right. repeat split.
      exists (VOther tag). split; [reflexivity | discriminate].
    + simpl in Hr.
      destruct (write_refers _ _ _ _ _ Hr) as (a & -> & _).
      pose proof (refers_below h a Hwf Hobj) as Ha.
      destruct (make_write_spec _ _ _ _ _ _ Ha Hr) as (Hone & Hl & Hm).
      exists a, Events.EventnKey. split; [exact Hone|]. left. auto.
Qed.

(** What the tree view of an event shows carries over to shared maps:
    the calls panic in the same cases, and an identifier or a
    collection that is there already means that nothing is written. *)
Lemma write_returns (h : heap) (a : ref) (k : string) (v : value) :
  maps h a <> None -> write h (Some a) k v <> None.
Proof.
  intros Ha. unfold write. destruct (maps h a); [discriminate | contradiction].
Qed.

Lemma shared_Enrich_panics_iff (h : heap) (object : option ref) (s : string) :
  refers h object ->
  (forall eventn,
      lookup h object Events.EventnKey = Some (VMap eventn) -> refers h eventn) ->
  (EnrichWithEventId h object s = None
   <-> object = None \/ lookup h object Events.EventnKey = Some (VMap None))
  /\ (EnrichWithCollection h object s = None
      <-> object = None \/ lookup h object Events.EventnKey = Some (VMap None)).
Proof.
  intros Hobj Hin.
  assert (Hflat : forall k v, object <> None -> write h object k v <> None).
  { intros k v Hsome. destruct object as [a|]; [|contradiction].
    now apply write_returns. }
  assert (Hnew : forall f k v,
             object <> None -> write (snd (make h f)) object k v <> None).
  { intros f k v Hsome. destruct object as [a|]; [|contradiction].
    apply write_returns. simpl.
    destruct (Nat.eqb a (next h)); [discriminate | exact Hobj]. }
  assert (Hsome : forall v, lookup h object Events.EventnKey = Some v ->
                            object <> None).
  { intros v Hv ->. discriminate Hv. }
  split.
  - unfold EnrichWithEventId.
    destruct (lookup h object Events.EventnKey) as [[|t|eventn|tag]|] eqn:Hctx.
    + split; [intros Hw; now apply Hflat in Hw; eauto|].
      intros [-> | Hv]; discriminate.
    + split; [intros Hw; now apply Hflat in Hw; eauto|].
      intros [-> | Hv]; discriminate.
    + pose proof (Hin eventn eq_refl) as Hev.
      destruct eventn as [b|].
      * split; [|intros [-> | Hv]; discriminate].
        intros Hw. exfalso.
        destruct (lookup h (Some b) Events.EventIdKey) as [val|];
          [destruct (is_empty_string val)|];
          first [discriminate Hw | now apply (write_returns h b) in Hw].
      * split; [now right | reflexivity].
    + split; [intros Hw; now apply Hflat in Hw; eauto|].
      intros [-> | Hv]; discriminate.
    + simpl. split.
      * intros Hw. left. destruct object as [a|]; [|reflexivity].
        now apply Hnew in Hw.
      * intros [-> | Hv]; [reflexivity | discriminate].
  - unfold EnrichWithCollection.
    destruct (lookup h object Events.EventnKey) as [[|t|eventn|tag]|] eqn:Hctx.
    + split; [intros Hw; now apply Hflat in Hw; eauto|].
      intros [-> | Hv]; discriminate.
    + split; [intros Hw; now apply Hflat in Hw; eauto|].
      intros [-> | Hv]; discriminate.
    + pose proof (Hin eventn eq_refl) as Hev.
      destruct eventn as [b|].
      * split; [|intros [-> | Hv]; discriminate].
        intros Hw. exfalso.
        destruct (lookup h (Some b) Events.collectionIdKey) as [val|];
          first [discriminate Hw | now apply (write_returns h b) in Hw].
      * split; [now right | reflexivity].
    + split; [intros Hw; now apply Hflat in Hw; eauto|].
      intros [-> | Hv]; discriminate.
    + simpl. split.
      * intros Hw. left. destruct object as [a|]; [|reflexivity].
        now apply Hnew in Hw.
      * intros [-> | Hv]; [reflexivity | discriminate].
Qed.

Lemma shared_first_id_wins (h : heap) (object eventn : option ref)
      (val : value) (s : string) :
  lookup h object Events.EventnKey = Some (VMap eventn) ->
  lookup h eventn Events.EventIdKey = Some val ->
  is_empty_string val = false ->
  EnrichWithEventId h object s = Some h.
Proof.
  intros Hctx Hval Hne. unfold EnrichWithEventId. now rewrite Hctx, Hval, Hne.
Qed.

Lemma shared_collection_never_overwrites (h : heap) (object eventn : option ref)
      (val : value) (s : string) :
  lookup h object Events.EventnKey = Some (VMap eventn) ->
  lookup h eventn Events.collectionIdKey = Some val ->
  EnrichWithCollection h object s = Some h.
Proof.
  intros Hctx Hval. unfold EnrichWithCollection. now rewrite Hctx, Hval.
Qed.

(** The two shapes a tree of maps cannot have.  With one inner map held
    under two keys, the identifier written through "eventn_ctx" is read
    through "backup" as well; with an event that holds itself under
    "eventn_ctx", the identifier is an entry of the event itself. *)
Example EnrichWithEventId_writes_the_shared_map :
  exists h',
    EnrichWithEventId aliased (Some 0) "abc" = Some h'
    /\ lookup h' (Some 0) "backup" = Some (VMap (Some 1))
    /\ lookup h' (Some 0) Events.EventnKey = Some (VMap (Some 1))
    /\ lookup h' (Some 1) Events.EventIdKey = Some (VString "abc")
    /\ lookup aliased (Some 1) Events.EventIdKey = None.
Proof. eexists. repeat split. Qed.

Example EnrichWithEventId_on_an_event_that_holds_itself :
  exists h',
    EnrichWithEventId cyclic (Some 0) "abc" = Some h'
    /\ lookup h' (Some 0) Events.EventIdKey = Some (VString "abc")
    /\ lookup h' (Some 0) Events.EventnKey = Some (VMap (Some 0)).
Proof. eexists. repeat split. Qed.

Lemma Enrich_writes_one_entry_witness :
  well_formed aliased
  /\ refers aliased (Some 0)
  /\ exists h',
      EnrichWithEventId aliased (Some 0) "abc" = Some h'
      /\ one_write aliased h' 1 Events.EventIdKey
      /\ maps h' 0 = maps aliased 0
      /\ lookup h' (Some 1) "url" = Some (VString "/").
Proof.
  assert (Hwf : well_formed aliased).
  { intros a Ha. simpl in Ha. destruct a as [|[|a]]; [lia | lia | reflexivity]. }
  assert (Hobj : refers aliased (Some 0)) by (simpl; discriminate).
  split; [exact Hwf|]. split; [exact Hobj|].
  eexists. split; [reflexivity|].
  destruct (proj1 (Enrich_writes_one_entry aliased _ (Some 0) "abc" Hwf Hobj)
                  eq_refl)
    as (a & k & Hone & [(_ & _ & Habsent & _) | [(Hctx & ->) | (_ & _ & v & Hv & Hnot)]]).
  - discriminate Habsent.
  - injection Hctx as <-. split; [exact Hone|].
    destruct Hone as (Hother & Hkeys & _). split.
    + apply Hother; [simpl; lia | discriminate].
    + rewrite Hkeys; [reflexivity | discriminate].
  - injection Hv as <-. now destruct (Hnot (Some 1)).
Defined.


End Shared_event_enrichment.

(** ** Redis keys *)

(** X19.  Keys do not collide.  Different users get different user keys and
    different reset ids different reset keys; no user key is a reset
    key, and neither is ever the key of the users index. *)
Theorem auth_keys_never_collide :
  (forall a b, AuthKeys.userKey a = AuthKeys.userKey b -> a = b)
  /\ (forall a b, AuthKeys.resetKey a = AuthKeys.resetKey b -> a = b)
  /\ (forall a b, AuthKeys.userKey a <> AuthKeys.resetKey b)
  /\ (forall a, AuthKeys.userKey a <> AuthKeys.usersIndexKey)
  /\ (forall a, AuthKeys.resetKey a <> AuthKeys.usersIndexKey).
Proof.
  unfold AuthKeys.userKey, AuthKeys.resetKey, AuthKeys.usersIndexKey.
  repeat split; intros; simpl in *; try discriminate.
  - now inversion H.
  - now inversion H.
Qed.
